(** * Function renaming plugin: the singleton manager and the worklist scheduler

    A shallow embedding of [reverser_ai/binary_ninja/__init__.py]:
    - [BinjaFunctionNameGPTManager.get_instance], the lazily built singleton;
    - [plugin_wrapper_rename_function], the single-function path;
    - [plugin_wrapper_rename_all_functions], the worklist loop that renames
      callees before callers.

    The host (Binary Ninja), the model behind [apply_suggestion] and the
    classifier [is_derived_func_name] are collaborators of the module; they
    appear as section variables, and as concrete instances in the scenarios. *)

From Stdlib Require Import Ascii.
From stdpp Require Import strings functions relations gmap list.

Set Warnings "-clear-no-such-hyp".

(** ** Python lists used as stacks *)

Section PyList.
Context {A : Type}.

(** [l.pop()] removes and returns the last element of [l]; [None] stands for
    the empty list, which the loop never pops (it tests [len(todo) != 0]). *)
Fixpoint pop (l : list A) : option (list A * A) :=
  match l with
  | [] => None
  | x :: l' =>
      match pop l' with
      | None => Some ([], x)
      | Some (r, y) => Some (x :: r, y)
      end
  end.
End PyList.

(** ** The singleton manager *)

Module Manager.

(** An instance of [FunctionNameGPTWrapper]. Python objects are compared by
    identity; the identity of a wrapper is the serial number of the
    constructor call that built it. *)
Record FunctionNameGPTWrapper := { serial : nat }.

(** [BinjaFunctionNameGPTManager]: the attribute [_binja_function_name_gpt],
    together with two counters of the constructor: how many times
    [FunctionNameGPTWrapper()] was entered and how many wrappers it built. *)
Record BinjaFunctionNameGPTManager := {
  _binja_function_name_gpt : option FunctionNameGPTWrapper;
  ctor_calls : nat;
  constructed : nat
}.

(** [__init__]: the attribute starts as [None]. *)
Definition init : BinjaFunctionNameGPTManager :=
  {| _binja_function_name_gpt := None; ctor_calls := 0; constructed := 0 |}.

Section GetInstance.
(** [FunctionNameGPTWrapper()] loads a model and may raise;
    [ctor_ok k] tells whether its [k]-th call returns. *)
Variable ctor_ok : nat → bool.

(** [FunctionNameGPTWrapper()]: [None] when the constructor raises. *)
Definition construct (m : BinjaFunctionNameGPTManager)
  : BinjaFunctionNameGPTManager * option FunctionNameGPTWrapper :=
  let k := ctor_calls m in
  if ctor_ok k
  then ({| _binja_function_name_gpt := _binja_function_name_gpt m;
           ctor_calls := S k; constructed := S (constructed m) |},
        Some {| serial := k |})
  else ({| _binja_function_name_gpt := _binja_function_name_gpt m;
           ctor_calls := S k; constructed := constructed m |},
        None).

(** [self._binja_function_name_gpt = w] *)
Definition store (w : FunctionNameGPTWrapper) (m : BinjaFunctionNameGPTManager)
  : BinjaFunctionNameGPTManager :=
  {| _binja_function_name_gpt := Some w;
     ctor_calls := ctor_calls m; constructed := constructed m |}.

(** [get_instance], run without interruption. The result is [None] when
    the constructor raised; the attribute is then left as it was. *)
Definition get_instance (m : BinjaFunctionNameGPTManager)
  : BinjaFunctionNameGPTManager * option FunctionNameGPTWrapper :=
  match _binja_function_name_gpt m with
  | None =>
      match construct m with
      | (m1, Some w) =>
          let m2 := store w m1 in (m2, _binja_function_name_gpt m2)
      | (m1, None) => (m1, None)
      end
  | Some _ => (m, _binja_function_name_gpt m)
  end.

(** A sequence of [n] calls on one thread: the final manager and what
    each call returned, in order. *)
Fixpoint get_instances (n : nat) (m : BinjaFunctionNameGPTManager)
  : BinjaFunctionNameGPTManager * list (option FunctionNameGPTWrapper) :=
  match n with
  | 0 => (m, [])
  | S n' =>
      let '(m1, r) := get_instance m in
      let '(m2, rs) := get_instances n' m1 in
      (m2, r :: rs)
  end.

(** *** Two background tasks inside [get_instance]

    Each task runs the statements of [get_instance] one at a time, and
    the other task may run between any two of them. *)
Inductive pc :=
| AtTest                                  (* if self._x is None: *)
| AtConstruct                             (* FunctionNameGPTWrapper() *)
| AtStore (w : FunctionNameGPTWrapper)    (* self._x = <the new wrapper> *)
| AtReturn                                (* return self._x *)
| Returned (r : option FunctionNameGPTWrapper)
| Failed.                                 (* the constructor raised *)

Definition thread_step (m : BinjaFunctionNameGPTManager) (p : pc)
  : BinjaFunctionNameGPTManager * pc :=
  match p with
  | AtTest =>
      match _binja_function_name_gpt m with
      | None => (m, AtConstruct)
      | Some _ => (m, AtReturn)
      end
  | AtConstruct =>
      match construct m with
      | (m1, Some w) => (m1, AtStore w)
      | (m1, None) => (m1, Failed)
      end
  | AtStore w => (store w m, AtReturn)
  | AtReturn => (m, Returned (_binja_function_name_gpt m))
  | Returned r => (m, Returned r)
  | Failed => (m, Failed)
  end.

(** The shared manager and the two tasks. *)
Record world := {
  shared : BinjaFunctionNameGPTManager;
  task1 : pc;
  task2 : pc
}.

Definition start : world :=
  {| shared := init; task1 := AtTest; task2 := AtTest |}.

(** A schedule names the task that runs next: [true] the first one,
    [false] the second. *)
Fixpoint interleave (sched : list bool) (w : world) : world :=
  match sched with
  | [] => w
  | true :: sched' =>
      let '(m, p) := thread_step (shared w) (task1 w) in
      interleave sched' {| shared := m; task1 := p; task2 := task2 w |}
  | false :: sched' =>
      let '(m, p) := thread_step (shared w) (task2 w) in
      interleave sched' {| shared := m; task1 := task1 w; task2 := p |}
  end.

(** One task alone, from the first statement to the end. *)
Definition run_alone (m : BinjaFunctionNameGPTManager)
  : BinjaFunctionNameGPTManager * pc :=
  let '(m1, p1) := thread_step m AtTest in
  let '(m2, p2) := thread_step m1 p1 in
  let '(m3, p3) := thread_step m2 p2 in
  thread_step m3 p3.
End GetInstance.

End Manager.

(** ** The host program and the worklist scheduler *)

Section Scheduler.
Context {FunctionRef : Type} `{Countable FunctionRef}.

(** What the module reads from a [binaryninja.BinaryView]: [bv.functions],
    and for a function [f] its [f.callees] and, before the run, [f.name]. *)
Record BinaryView := {
  functions : list FunctionRef;
  callees : FunctionRef → list FunctionRef;
  name : FunctionRef → string
}.

(** How a call [gpt.apply_suggestion(f)] ends. *)
Inductive outcome :=
| Suggested (s : string)   (* the model gave [s] and [f.name = s] was run *)
| NoSuggestion             (* the call returned and left the name alone *)
| Raises.                  (* the call raised *)

(** What a run does that an observer can see, in the order it happens. *)
Inductive event :=
| Apply (f : FunctionRef) (o : outcome)   (* gpt.apply_suggestion(f) *)
| MarkDone (f : FunctionRef).             (* done.add(f) *)

(** The functions marked done, in the order of the [done.add] calls. *)
Definition done_order (tr : list event) : list FunctionRef :=
  omap (λ e, match e with MarkDone f => Some f | Apply _ _ => None end) tr.

(** The functions handed to [apply_suggestion], in the order of the calls. *)
Definition applied (tr : list event) : list FunctionRef :=
  omap (λ e, match e with Apply f _ => Some f | MarkDone _ => None end) tr.

(** The locals [todo] and [done] of the loop, the names the host holds, and
    the events so far. *)
Record state := {
  todo : list FunctionRef;
  done : gset FunctionRef;
  names : FunctionRef → string;
  trace : list event
}.

Definition set_todo (l : list FunctionRef) (st : state) : state :=
  {| todo := l; done := done st; names := names st; trace := trace st |}.

(** [todo.append(f)] *)
Definition todo_append (f : FunctionRef) (st : state) : state :=
  set_todo (todo st ++ [f]) st.

(** [done.add(f)] *)
Definition done_add (f : FunctionRef) (st : state) : state :=
  {| todo := todo st; done := {[f]} ∪ done st; names := names st;
     trace := trace st ++ [MarkDone f] |}.

(** [for f in fs: if f not in done: todo.append(f)], the shape of both
    [for] loops of the function. *)
Definition append_not_done (fs : list FunctionRef) (st : state) : state :=
  foldl (λ s f, if decide (f ∈ done s) then s else todo_append f s) st fs.

(** What the model behind the oracle gives for a query: a name, or a
    failure (model unavailable, timed out, malformed output). *)
Inductive answer :=
| Name (s : string)
| Failure.

(** Modelled from the spec: the NameOracle is the wrapper around the model,
    in [function_name_gpt_wrapper.py], which is not among the sources. A
    failure of the model propagates as "no suggestion" to the caller, not as
    a crash of the run. *)
Definition name_oracle (model : (FunctionRef → string) → FunctionRef → answer)
  : (FunctionRef → string) → FunctionRef → outcome :=
  λ ns f, match model ns f with
          | Name s => Suggested s
          | Failure => NoSuggestion
          end.

(** The classifier [utils.is_derived_func_name], which the spec calls
    [is_meaningful]: [true] on a name derived by a human or by tooling,
    [false] on a placeholder of the host. *)
Variable is_derived_func_name : string → bool.

(** The model behind the wrapper: given the names the host holds, what a
    query for a function ends in. *)
Variable suggest : (FunctionRef → string) → FunctionRef → outcome.

(** Modelled from the spec: [FunctionNameGPTWrapper.apply_suggestion] lives in
    [function_name_gpt_wrapper.py], which is not among the sources. The spec
    gives its pipeline as NameOracle, then the NameClassifier, then
    RenameApplier: the model is asked for a suggestion; a suggestion for a
    function whose current name is classified as derived (meaningful) is
    dropped there; any other suggestion is committed as the new name of
    the function. *)
Definition apply_suggestion (f : FunctionRef) (st : state) : outcome * state :=
  let returns (o : outcome) (ns : FunctionRef → string) :=
    (o, {| todo := todo st; done := done st; names := ns;
           trace := trace st ++ [Apply f o] |}) in
  match suggest (names st) f with
  | Suggested s =>
      if is_derived_func_name (names st f) then returns NoSuggestion (names st)
      else returns (Suggested s) (<[f := s]> (names st))
  | NoSuggestion => returns NoSuggestion (names st)
  | Raises => returns Raises (names st)
  end.

Variable bv : BinaryView.

(** Lines 82-90: [done = set()], [todo = []] and the first [for] loop. *)
Definition blank : state :=
  {| todo := []; done := ∅; names := name bv; trace := [] |}.

Definition initial_state : state := append_not_done (functions bv) blank.

(** Line 102: [all(callee in done for callee in current.callees)] *)
Definition all_callees_done (current : FunctionRef) (st : state) : bool :=
  forallb (λ callee, bool_decide (callee ∈ done st)) (callees bv current).

(** Lines 102-107. [inr] carries the state in which [apply_suggestion]
    raised; nothing after the call is run then. *)
Definition finalize_if_ready (current : FunctionRef) (st : state) : state + state :=
  if all_callees_done current st then
    if negb (is_derived_func_name (names st current)) then
      match apply_suggestion current st with
      | (Raises, st1) => inr st1
      | (_, st1) => inl (done_add current st1)
      end
    else inl (done_add current st)
  else inl st.

(** Lines 110-115. *)
Definition requeue (current : FunctionRef) (st : state) : state :=
  append_not_done (callees bv current) (todo_append current st).

Inductive step_result :=
| Continue (st : state)   (* back to the test of the [while] *)
| Exit (st : state)       (* [len(todo) != 0] is false *)
| Abort (st : state).     (* an exception left the loop *)

(** One evaluation of the test at line 93 and, if it holds, of the body. *)
Definition loop_iteration (st : state) : step_result :=
  match pop (todo st) with
  | None => Exit st
  | Some (rest, current) =>
      let st1 := set_todo rest st in
      if decide (current ∈ done st1) then Continue st1
      else
        match finalize_if_ready current st1 with
        | inl st2 => Continue (requeue current st2)
        | inr st2 => Abort st2
        end
  end.

Inductive run_result :=
| Running (st : state)    (* the loop is still going *)
| Finished (st : state)   (* the loop was left through its test *)
| Raised (st : state).    (* the loop was left by an exception *)

Definition state_of (r : run_result) : state :=
  match r with Running st | Finished st | Raised st => st end.

(** The [while] loop, cut after [fuel] evaluations of its test. *)
Fixpoint worklist_loop (fuel : nat) (st : state) : run_result :=
  match fuel with
  | 0 => Running st
  | S fuel' =>
      match loop_iteration st with
      | Continue st' => worklist_loop fuel' st'
      | Exit st' => Finished st'
      | Abort st' => Raised st'
      end
  end.

(** Two states agree in what the scheduler does: the worklist, the set
    [done] and the order in which functions were marked done. *)
Definition same_schedule (st1 st2 : state) : Prop :=
  todo st1 = todo st2 ∧ done st1 = done st2
  ∧ done_order (trace st1) = done_order (trace st2).

(** Two runs are at the same point, with states that agree. *)
Definition same_run (r1 r2 : run_result) : Prop :=
  match r1, r2 with
  | Running st1, Running st2
  | Finished st1, Finished st2
  | Raised st1, Raised st2 => same_schedule st1 st2
  | _, _ => False
  end.

(** *** The call graph *)

(** [edge a b]: [a] calls [b]. *)
Definition edge (a b : FunctionRef) : Prop := b ∈ callees bv a.

(** [path a b]: a chain of one or more calls leads from [a] to [b]. *)
Definition path : relation FunctionRef := tc edge.

(** No function of the snapshot is on a cycle, self-loops included. *)
Definition acyclic : Prop := ∀ f, f ∈ functions bv → ¬ path f f.

(** Every callee of a function of the snapshot is in the snapshot. *)
Definition closed : Prop :=
  ∀ f c, f ∈ functions bv → c ∈ callees bv f → c ∈ functions bv.

(** [before x y l]: [x] occurs in [l] at a position strictly ahead of one
    where [y] occurs. *)
Definition before (x y : FunctionRef) (l : list FunctionRef) : Prop :=
  ∃ i j, i < j ∧ l !! i = Some x ∧ l !! j = Some y.

(** *** Fuel *)

(** The functions of the snapshot, as a set. *)
Definition snapshot : gset FunctionRef := list_to_set (functions bv).

(** What a function can cost the loop: two evaluations of the test of its
    own, and one for each of its calls. *)
Definition cost (f : FunctionRef) : nat := 2 + length (callees bv f).

Definition weight (X : gset FunctionRef) : nat :=
  sum_list_with cost (elements X).

(** The number of calls of the snapshot, counted per caller. *)
Definition edges : nat :=
  sum_list_with (λ f, length (callees bv f)) (elements snapshot).

(** Evaluations of the test that are enough on an acyclic snapshot. *)
Definition fuel_bound : nat :=
  length (functions bv) + 2 * size snapshot + edges + 1.

(** [grown ds st st']: [done] has grown from [st] to [st'], and only by
    functions reached from [ds]. *)
Definition grown (ds : list FunctionRef) (st st' : state) : Prop :=
  done st ⊆ done st'
  ∧ ∀ f, f ∈ done st' → f ∈ done st ∨ ∃ d, d ∈ ds ∧ rtc edge d f.

(** The functions of the snapshot not yet done, weighed. *)
Definition pending (st : state) : nat := weight (snapshot ∖ done st).

(** [drains st rest ds]: from [st], some number [k] of evaluations of the
    test takes the functions [ds] off the top of the worklist, leaving
    [rest], with all of [ds] done, and [k] is paid for by the length of [ds]
    and the functions newly done; or an exception ends the run on the way,
    and [k] is paid for by these and by functions [C] still pending. *)
Definition drains (st : state) (rest ds : list FunctionRef) : Prop :=
  ∃ k,
    match worklist_loop k st with
    | Running st' =>
        todo st' = rest ∧ (∀ d, d ∈ ds → d ∈ done st') ∧ grown ds st st'
        ∧ k + pending st' ≤ length ds + pending st
    | Raised st' =>
        grown ds st st'
        ∧ ∃ C : gset FunctionRef,
            C ⊆ snapshot ∖ done st'
            ∧ (∀ x, x ∈ C → ∃ d, d ∈ ds ∧ rtc edge d x)
            ∧ k + pending st' ≤ length ds + pending st + weight C
    | Finished _ => False
    end.

Variable ctor_ok : nat → bool.

(** [plugin_wrapper_rename_all_functions(bv)] *)
Definition plugin_wrapper_rename_all_functions
    (fuel : nat) (m : Manager.BinjaFunctionNameGPTManager)
  : Manager.BinjaFunctionNameGPTManager * run_result :=
  match Manager.get_instance ctor_ok m with
  | (m', None) => (m', Raised blank)
  | (m', Some gpt) => (m', worklist_loop fuel initial_state)
  end.

(** [plugin_wrapper_rename_function(_, f)], on a host with the names [ns]:
    the state after the call, or [None] when the constructor raised. *)
Definition plugin_wrapper_rename_function
    (m : Manager.BinjaFunctionNameGPTManager) (ns : FunctionRef → string)
    (f : FunctionRef)
  : Manager.BinjaFunctionNameGPTManager * option state :=
  match Manager.get_instance ctor_ok m with
  | (m', None) => (m', None)
  | (m', Some gpt) =>
      (m', Some (apply_suggestion f
                   {| todo := []; done := ∅; names := ns; trace := [] |}).2)
  end.

(** *** The iteration, case by case

    The same iteration as a relation, one constructor per path through the
    body; [loop_iteration_iteration] shows that [loop_iteration] follows it. *)
Inductive iteration (st : state) : step_result → Prop :=
| iter_exit :
    todo st = [] →
    iteration st (Exit st)
| iter_stale rest current :
    todo st = rest ++ [current] →
    current ∈ done st →
    iteration st (Continue (set_todo rest st))
| iter_unready rest current :
    todo st = rest ++ [current] →
    current ∉ done st →
    all_callees_done current st = false →
    iteration st
      (Continue {| todo := rest ++ [current]
                          ++ filter (λ c, c ∉ done st) (callees bv current);
                   done := done st; names := names st; trace := trace st |})
| iter_keep rest current :
    todo st = rest ++ [current] →
    current ∉ done st →
    all_callees_done current st = true →
    is_derived_func_name (names st current) = true →
    iteration st
      (Continue {| todo := rest ++ [current];
                   done := {[current]} ∪ done st; names := names st;
                   trace := trace st ++ [MarkDone current] |})
| iter_rename rest current s :
    todo st = rest ++ [current] →
    current ∉ done st →
    all_callees_done current st = true →
    is_derived_func_name (names st current) = false →
    suggest (names st) current = Suggested s →
    iteration st
      (Continue {| todo := rest ++ [current];
                   done := {[current]} ∪ done st;
                   names := <[current := s]> (names st);
                   trace := trace st ++ [Apply current (Suggested s);
                                         MarkDone current] |})
| iter_silent rest current :
    todo st = rest ++ [current] →
    current ∉ done st →
    all_callees_done current st = true →
    is_derived_func_name (names st current) = false →
    suggest (names st) current = NoSuggestion →
    iteration st
      (Continue {| todo := rest ++ [current];
                   done := {[current]} ∪ done st; names := names st;
                   trace := trace st ++ [Apply current NoSuggestion;
                                         MarkDone current] |})
| iter_raise rest current :
    todo st = rest ++ [current] →
    current ∉ done st →
    all_callees_done current st = true →
    is_derived_func_name (names st current) = false →
    suggest (names st) current = Raises →
    iteration st
      (Abort {| todo := rest; done := done st; names := names st;
                trace := trace st ++ [Apply current Raises] |}).

(** *** The traces of the loop *)

(** The names the host holds after the events [tr]. *)
Definition replay (tr : list event) : FunctionRef → string :=
  foldl (λ ns e, match e with
                 | Apply f (Suggested s) => <[f := s]> ns
                 | Apply _ _ | MarkDone _ => ns
                 end) (name bv) tr.

(** The traces the loop can have built when it is back at its test: a
    function not yet done, all of whose callees are done, is marked done,
    right after a call of [apply_suggestion] that returned if its name is
    not derived, and without such a call if it is. *)
Inductive loop_trace : list event → Prop :=
| trace_nil : loop_trace []
| trace_keep tr f :
    loop_trace tr →
    f ∉ done_order tr →
    (∀ c, c ∈ callees bv f → c ∈ done_order tr) →
    is_derived_func_name (name bv f) = true →
    loop_trace (tr ++ [MarkDone f])
| trace_apply tr f o :
    loop_trace tr →
    f ∉ done_order tr →
    (∀ c, c ∈ callees bv f → c ∈ done_order tr) →
    is_derived_func_name (name bv f) = false →
    o = suggest (replay tr) f →
    o ≠ Raises →
    loop_trace (tr ++ [Apply f o; MarkDone f]).

(** What the loop does to finalize [f] after the events [tr]. *)
Definition block (tr : list event) (f : FunctionRef) : list event :=
  if is_derived_func_name (name bv f) then [MarkDone f]
  else [Apply f (suggest (replay tr) f); MarkDone f].

(** The trace of a run in which no call raises, rebuilt from the order in
    which it marks the functions done. *)
Definition expected (l : list FunctionRef) : list event :=
  foldl (λ tr f, tr ++ block tr f) [] l.

(** The trace of a run that an exception ended. *)
Definition aborted_trace (tr : list event) : Prop :=
  ∃ tr' f, tr = tr' ++ [Apply f Raises] ∧ loop_trace tr'
           ∧ (f ∉ done_order tr')
           ∧ (∀ c, c ∈ callees bv f → c ∈ done_order tr')
           ∧ is_derived_func_name (name bv f) = false
           ∧ suggest (replay tr') f = Raises.

(** What holds of the state each time the loop is at its test. *)
Record at_test (st : state) : Prop := {
  at_trace : loop_trace (trace st);
  at_done : ∀ f, f ∈ done st ↔ f ∈ done_order (trace st);
  at_names : names st = replay (trace st);
  at_pending : ∀ f, f ∈ functions bv → f ∈ done st ∨ f ∈ todo st
}.

(** What holds of the state a run is in, however it got there. *)
Record observed (st : state) : Prop := {
  obs_trace : loop_trace (trace st) ∨ aborted_trace (trace st);
  obs_done : ∀ f, f ∈ done st ↔ f ∈ done_order (trace st);
  obs_names : names st = replay (trace st)
}.

(** *** What the loop can reach *)

(** [reachable f]: [f] is a function of the snapshot or is called, through
    any number of calls, by one. The loop follows [callees] wherever they
    lead, also to functions that [bv.functions] does not list. *)
Definition reachable (f : FunctionRef) : Prop :=
  ∃ g, g ∈ functions bv ∧ rtc edge g f.

(** [reaches_cycle f]: [f] is on a cycle of calls, or calls, through any
    number of calls, a function that is. *)
Definition reaches_cycle (f : FunctionRef) : Prop :=
  ∃ c, rtc edge f c ∧ path c c.

End Scheduler.

Arguments BinaryView : clear implicits.
Arguments event : clear implicits.
Arguments state FunctionRef {_ _}.
Arguments step_result FunctionRef {_ _}.
Arguments run_result FunctionRef {_ _}.

(** ** Two tasks in [get_instance], whatever the schedule *)

(** Whether a task is past the test at line 34. *)
Definition past_test (p : Manager.pc) : nat :=
  match p with
  | Manager.AtTest | Manager.AtConstruct => 0
  | Manager.AtStore _ | Manager.AtReturn | Manager.Returned _
  | Manager.Failed => 1
  end.

(** A task at [return self._binja_function_name_gpt], or past it, with the
    attribute [a]: the attribute is set, and what was returned is a
    wrapper that the constructor has built. *)
Definition returns_wrapper (m : Manager.BinjaFunctionNameGPTManager)
    (p : Manager.pc) : Prop :=
  match p with
  | Manager.AtReturn => is_Some (Manager._binja_function_name_gpt m)
  | Manager.Returned r =>
      ∃ w, r = Some w ∧ Manager.serial w < Manager.ctor_calls m
  | Manager.AtStore w => Manager.serial w < Manager.ctor_calls m
  | Manager.AtTest | Manager.AtConstruct | Manager.Failed => True
  end.

(** A task that can only hand out the wrapper [w0]. *)
Definition bound_to (w0 : Manager.FunctionNameGPTWrapper) (p : Manager.pc)
  : Prop :=
  match p with
  | Manager.AtTest | Manager.AtReturn => True
  | Manager.Returned r => r = Some w0
  | Manager.AtConstruct | Manager.AtStore _ | Manager.Failed => False
  end.

(** What every schedule keeps of the shared manager and the two tasks. *)
Definition tasks_sound (w : Manager.world) : Prop :=
  let m := Manager.shared w in
  Manager.constructed m ≤ Manager.ctor_calls m
  ∧ Manager.ctor_calls m
    ≤ past_test (Manager.task1 w) + past_test (Manager.task2 w)
  ∧ (∀ x, Manager._binja_function_name_gpt m = Some x →
          Manager.serial x < Manager.ctor_calls m)
  ∧ returns_wrapper m (Manager.task1 w)
  ∧ returns_wrapper m (Manager.task2 w).

(** The state in which the wrapper [w0] is stored, it is the only one built
    and both tasks can only hand out [w0]. *)
Definition settled (w0 : Manager.FunctionNameGPTWrapper) (w : Manager.world)
  : Prop :=
  Manager._binja_function_name_gpt (Manager.shared w) = Some w0
  ∧ Manager.constructed (Manager.shared w) = 1
  ∧ Manager.ctor_calls (Manager.shared w) = 1
  ∧ bound_to w0 (Manager.task1 w)
  ∧ bound_to w0 (Manager.task2 w).

(** ** Background tasks *)

(** [BGTask]: the fields set by [__init__] and the method [run]. The call
    [super().__init__(msg, True)] hands the message to the host and asks for a
    task that can be cancelled; [run] never looks at a cancellation. *)
Module BGTask.
Section Fields.
Context {FunctionRef : Type} `{Countable FunctionRef}.

Record t := {
  msg : string;
  can_cancel : bool;
  f : BinaryView FunctionRef → nat → Manager.BinjaFunctionNameGPTManager
      → Manager.BinjaFunctionNameGPTManager * run_result FunctionRef;
  bv : BinaryView FunctionRef
}.

(** [__init__(self, bv, msg, f)] *)
Definition init (bv0 : BinaryView FunctionRef) (msg0 : string)
    (f0 : BinaryView FunctionRef → nat → Manager.BinjaFunctionNameGPTManager
          → Manager.BinjaFunctionNameGPTManager * run_result FunctionRef)
  : t :=
  {| msg := msg0; can_cancel := true; f := f0; bv := bv0 |}.

(** [run(self)]: [self.f(self.bv)], cut after [fuel] evaluations of the
    test of the loop inside. *)
Definition run (self : t) (fuel : nat)
    (m : Manager.BinjaFunctionNameGPTManager)
  : Manager.BinjaFunctionNameGPTManager * run_result FunctionRef :=
  f self (bv self) fuel m.

End Fields.
Arguments t FunctionRef {_ _}.
End BGTask.

(** [BGTaskFunction]: as [BGTask], with the further argument [arg]. *)
Module BGTaskFunction.
Section Fields.
Context {FunctionRef : Type} `{Countable FunctionRef}.

Record t := {
  msg : string;
  can_cancel : bool;
  f : BinaryView FunctionRef → FunctionRef
      → Manager.BinjaFunctionNameGPTManager
      → Manager.BinjaFunctionNameGPTManager * option (state FunctionRef);
  bv : BinaryView FunctionRef;
  arg : FunctionRef
}.

(** [__init__(self, bv, msg, f, arg)] *)
Definition init (bv0 : BinaryView FunctionRef) (msg0 : string)
    (f0 : BinaryView FunctionRef → FunctionRef
          → Manager.BinjaFunctionNameGPTManager
          → Manager.BinjaFunctionNameGPTManager
            * option (state FunctionRef))
    (arg0 : FunctionRef) : t :=
  {| msg := msg0; can_cancel := true; f := f0; bv := bv0; arg := arg0 |}.

(** [run(self)]: [self.f(self.bv, self.arg)] *)
Definition run (self : t) (m : Manager.BinjaFunctionNameGPTManager)
  : Manager.BinjaFunctionNameGPTManager * option (state FunctionRef) :=
  f self (bv self) (arg self) m.

End Fields.
Arguments t FunctionRef {_ _}.
End BGTaskFunction.

Section Commands.
Context {FunctionRef : Type} `{Countable FunctionRef}.
Variable is_derived_func_name : string → bool.
Variable suggest : (FunctionRef → string) → FunctionRef → outcome.
Variable ctor_ok : nat → bool.

(** [plugin_wrapper_rename_all_functions_bg(bv)]: the task it builds and
    starts. *)
Definition plugin_wrapper_rename_all_functions_bg
    (bv : BinaryView FunctionRef) : BGTask.t FunctionRef :=
  BGTask.init bv
    "Renaming all functions in the binary based on GPT suggestions."
    (λ bv fuel m,
       plugin_wrapper_rename_all_functions is_derived_func_name suggest bv
         ctor_ok fuel m).

(** [plugin_wrapper_rename_function_bg(bv, f)]: the task it builds and
    starts. The function it wraps ignores the view but for the names the
    host holds. *)
Definition plugin_wrapper_rename_function_bg
    (bv : BinaryView FunctionRef) (f : FunctionRef)
  : BGTaskFunction.t FunctionRef :=
  BGTaskFunction.init bv "Querying GPT for a function summary"
    (λ bv f m,
       plugin_wrapper_rename_function is_derived_func_name suggest ctor_ok m
         (name bv) f)
    f.

(** A command of the plugin, with the view the host passes to it. *)
Inductive command :=
| RenameAll (bv : BinaryView FunctionRef) (fuel : nat)
| RenameOne (bv : BinaryView FunctionRef) (f : FunctionRef).

(** The task of a command, started and run to its end (or, for the loop,
    until the fuel is spent): what it leaves of the manager. *)
Definition run_command (m : Manager.BinjaFunctionNameGPTManager)
    (c : command) : Manager.BinjaFunctionNameGPTManager :=
  match c with
  | RenameAll bv fuel =>
      (BGTask.run (plugin_wrapper_rename_all_functions_bg bv) fuel m).1
  | RenameOne bv f =>
      (BGTaskFunction.run (plugin_wrapper_rename_function_bg bv f) m).1
  end.

(** Commands whose tasks run one after the other. *)
Definition run_commands (cs : list command)
    (m : Manager.BinjaFunctionNameGPTManager)
  : Manager.BinjaFunctionNameGPTManager :=
  foldl run_command m cs.

End Commands.

(** ** The classifier and the scenarios *)

Module Scenario.

Definition is_hex_digit (c : ascii) : bool :=
  let n := Ascii.N_of_ascii c in
  ((48 <=? n) && (n <=? 57) || (97 <=? n) && (n <=? 102)
   || (65 <=? n) && (n <=? 70))%N.

Fixpoint all_hex (s : string) : bool :=
  match s with
  | EmptyString => true
  | String c s' => is_hex_digit c && all_hex s'
  end.

(** Modelled from the spec: [utils.is_derived_func_name] lives in [utils.py],
    which is not among the sources. It is [false] on a placeholder of the
    host, a fixed prefix followed only by a hexadecimal address, and [true] on
    every other name, the empty one included. *)
Definition is_derived_func_name (name : string) : bool :=
  match name with
  | String "s"%char (String "u"%char (String "b"%char (String "_"%char
      (String c rest)))) =>
      negb (all_hex (String c rest))
  | _ => true
  end.

(** Functions are identified by their start address. *)
Definition main : N := 0x401000.
Definition helper1 : N := 0x401100.
Definition helper2 : N := 0x401200.

(** [{main -> helper1, helper1 -> helper2, helper2 -> []}], all three under
    placeholder names, with [bv.functions] in the order [fs]. *)
Definition chain (fs : list N) : BinaryView N :=
  {| functions := fs;
     callees := λ f,
       if decide (f = main) then [helper1]
       else if decide (f = helper1) then [helper2]
       else [];
     name := λ f,
       if decide (f = main) then "sub_401000"
       else if decide (f = helper1) then "sub_401100"
       else "sub_401200" |}.

(** The chain with [bv.functions] in the order of the addresses. *)
Definition chain0 : BinaryView N := chain [main; helper1; helper2].

(** [{a -> a}]: one function that calls itself. *)
Definition self_loop : BinaryView N :=
  {| functions := [main];
     callees := λ f, if decide (f = main) then [main] else [];
     name := λ _, "sub_401000" |}.

(** [{a -> b, b -> a}]: a pure cycle of length two. *)
Definition two_cycle : BinaryView N :=
  {| functions := [helper1; helper2];
     callees := λ f,
       if decide (f = helper1) then [helper2]
       else if decide (f = helper2) then [helper1]
       else [];
     name := λ f,
       if decide (f = helper1) then "sub_401100" else "sub_401200" |}.

(** [main -> helper], where [helper] carries the name [ParseHeader]. *)
Definition named_helper : BinaryView N :=
  {| functions := [main; helper1];
     callees := λ f, if decide (f = main) then [helper1] else [];
     name := λ f, if decide (f = main) then "sub_401000" else "ParseHeader" |}.

(** A model that always answers: it prefixes the current name. *)
Definition eager : (N → string) → N → outcome :=
  λ ns f, Suggested ("renamed_" +:+ (ns f)).

(** A model that fails for [helper1] and answers for the others. *)
Definition failing_on_helper1 : (N → string) → N → answer :=
  λ ns f, if decide (f = helper1) then Failure
          else Name ("renamed_" +:+ (ns f)).

(** A constructor that always returns. *)
Definition ctor_fine : nat → bool := λ _, true.

(** A constructor that raises twice and returns from then on. *)
Definition ctor_flaky : nat → bool := λ k, bool_decide (2 ≤ k).

(** [main -> helper1], where [bv.functions] lists [main] only. *)
Definition dangling : BinaryView N :=
  {| functions := [main];
     callees := λ f, if decide (f = main) then [helper1] else [];
     name := λ f, if decide (f = main) then "sub_401000" else "sub_401100" |}.

End Scenario.

(** * Properties *)

(** ** Python lists *)

Section PyListFacts.
Context {A : Type}.

Lemma pop_snoc (l : list A) (x : A) : pop (l ++ [x]) = Some (l, x).
Proof.
  induction l as [|y l IH]; simpl; [done|]. by rewrite IH.
Qed.

Lemma pop_None (l : list A) : pop l = None → l = [].
Proof.
  destruct l as [|x l]; [done|]. simpl. by destruct (pop l) as [[??]|].
Qed.

Lemma pop_Some (l r : list A) (x : A) : pop l = Some (r, x) → l = r ++ [x].
Proof.
  revert r. induction l as [|y l IH]; intros r; simpl; [done|].
  destruct (pop l) as [[r' z]|] eqn:E.
  - intros [= <- <-]. simpl. f_equal. by apply IH.
  - intros [= <- <-]. by rewrite (pop_None l E).
Qed.
End PyListFacts.

(** ** The singleton manager, one thread *)

Section ManagerFacts.
Import Manager.
Variable ctor_ok : nat → bool.

(** Once the attribute is set, [get_instance] returns it and touches
    nothing: the constructor is not entered. *)
Lemma get_instance_set m w :
  _binja_function_name_gpt m = Some w →
  get_instance ctor_ok m = (m, Some w).
Proof. intros E. unfold get_instance. by rewrite E. Qed.

Lemma get_instances_set n m w :
  _binja_function_name_gpt m = Some w →
  get_instances ctor_ok n m = (m, replicate n (Some w)).
Proof.
  intros E. induction n as [|n IH]; simpl; [done|].
  by rewrite (get_instance_set m w E), IH.
Qed.

(** On an unset attribute the constructor is entered once; the attribute is
    set exactly when it returns. *)
Lemma get_instance_unset m :
  _binja_function_name_gpt m = None →
  if ctor_ok (ctor_calls m)
  then ∃ m', get_instance ctor_ok m = (m', Some {| serial := ctor_calls m |})
             ∧ _binja_function_name_gpt m' = Some {| serial := ctor_calls m |}
             ∧ ctor_calls m' = S (ctor_calls m)
             ∧ constructed m' = S (constructed m)
  else ∃ m', get_instance ctor_ok m = (m', None)
             ∧ _binja_function_name_gpt m' = None
             ∧ ctor_calls m' = S (ctor_calls m)
             ∧ constructed m' = constructed m.
Proof.
  intros E. unfold get_instance, construct. rewrite E.
  destruct (ctor_ok (ctor_calls m)); simpl; eauto 10.
Qed.

(** The shape of any sequence of calls that starts with the attribute unset
    and no wrapper built: some calls in which the constructor raises, then,
    from the first call in which it returns, the one wrapper it built. *)
Lemma get_instances_shape n m m' rs :
  _binja_function_name_gpt m = None → constructed m = 0 →
  get_instances ctor_ok n m = (m', rs) →
  (rs = replicate n None ∧ constructed m' = 0
   ∧ _binja_function_name_gpt m' = None)
  ∨ (∃ k w, k < n ∧ rs = replicate k None ++ replicate (n - k) (Some w)
       ∧ constructed m' = 1 ∧ ctor_calls m' = S (serial w)
       ∧ serial w = ctor_calls m + k
       ∧ _binja_function_name_gpt m' = Some w).
Proof.
  revert m m' rs. induction n as [|n IH]; intros m m' rs E C; simpl.
  { intros [= <- <-]. left. done. }
  pose proof (get_instance_unset m E) as G.
  destruct (ctor_ok (ctor_calls m)).
  - destruct G as (m1 & -> & E1 & K1 & C1).
    rewrite (get_instances_set n m1 _ E1). intros [= <- <-].
    right. exists 0, {| serial := ctor_calls m |}. simpl.
    rewrite ?Nat.sub_0_r. repeat split; try done; lia.
  - destruct G as (m1 & -> & E1 & K1 & C1).
    destruct (get_instances ctor_ok n m1) as [m2 rs2] eqn:R.
    intros [= <- <-].
    destruct (IH m1 m2 rs2 E1 ltac:(lia) R) as [(-> & ? & ?)|(k & w & ? & -> & ? & ? & ? & ?)].
    + left. done.
    + right. exists (S k), w. simpl. repeat split; try done; lia.
Qed.

(** C8. Sequential singleton: in any sequence of [n] calls of
    [get_instance] on a fresh manager, run one after the other, at most one
    wrapper is ever built; all calls that return hand out that same wrapper;
    once a call has returned it, every later call returns it and the
    constructor is not entered again; and when the constructor returns in the
    first call, that call builds the wrapper. *)
Theorem get_instance_singleton (n : nat) m rs :
  get_instances ctor_ok n init = (m, rs) →
  constructed m ≤ 1
  ∧ (∀ i j w w', rs !! i = Some (Some w) → rs !! j = Some (Some w') → w = w')
  ∧ (∀ i w, rs !! i = Some (Some w) →
       ctor_calls m = S (serial w)
       ∧ ∀ j, i ≤ j < n → rs !! j = Some (Some w))
  ∧ (ctor_ok 0 = true → 0 < n →
       rs !! 0 = Some (Some {| serial := 0 |}) ∧ constructed m = 1
       ∧ ctor_calls m = 1).
Proof.
  intros R.
  destruct (get_instances_shape n init m rs eq_refl eq_refl R)
    as [(-> & C & E)|(k & w & Hk & -> & C & K & S0 & E)].
  - split; [lia|]. split; [|split].
    + intros i j w w' Hi. apply lookup_replicate in Hi as [? _]. done.
    + intros i w Hi. apply lookup_replicate in Hi as [? _]. done.
    + intros Hok Hn. destruct n as [|n]; [lia|]. exfalso.
      simpl in R. unfold get_instance, construct in R. simpl in R.
      rewrite Hok in R. simpl in R.
      rewrite (get_instances_set n (store {| serial := 0 |} _)
                 {| serial := 0 |} eq_refl) in R.
      simpl in R. discriminate.
  - assert (L : ∀ i w', (replicate k None ++ replicate (n - k) (Some w)) !! i
                        = Some (Some w') → w' = w ∧ k ≤ i).
    { intros i w' Hi. destruct (decide (i < k)) as [Hlt|Hge].
      - rewrite lookup_app_l in Hi by (rewrite length_replicate; lia).
        apply lookup_replicate in Hi as [? _]. done.
      - rewrite lookup_app_r in Hi by (rewrite length_replicate; lia).
        apply lookup_replicate in Hi as [[= ->] _]. split; [done|].
        lia. }
    split; [lia|]. split; [|split].
    + intros i j w1 w2 Hi Hj.
      apply L in Hi as [-> _]. apply L in Hj as [-> _]. done.
    + intros i w1 Hi. apply L in Hi as [-> Hki]. split; [done|].
      intros j Hj. rewrite lookup_app_r by (rewrite length_replicate; lia).
      rewrite length_replicate. apply lookup_replicate. split; [done|lia].
    + intros Hok Hn. destruct n as [|n]; [lia|].
      simpl in R. unfold get_instance, construct in R. simpl in R.
      rewrite Hok in R. simpl in R.
      rewrite (get_instances_set n (store {| serial := 0 |} _)
                 {| serial := 0 |} eq_refl) in R.
      simpl in R. injection R as <- R. simpl in *.
      destruct k as [|k]; simpl in R.
      * rewrite ?Nat.sub_0_r in R. injection R as <-. done.
      * discriminate.
Qed.

End ManagerFacts.

(** Three calls in a row with a constructor that returns: one wrapper. *)
Lemma get_instance_singleton_witness :
  Manager.constructed
    (Manager.get_instances Scenario.ctor_fine 3 Manager.init).1 ≤ 1
  ∧ (Manager.get_instances Scenario.ctor_fine 3 Manager.init).2
    = replicate 3 (Some {| Manager.serial := 0 |}).
Proof.
  split.
  - exact (proj1 (get_instance_singleton Scenario.ctor_fine 3 _ _ eq_refl)).
  - reflexivity.
Defined.

(** ** The singleton manager, two tasks *)

(** A task that runs alone goes through [get_instance]. *)
Lemma run_alone_get_instance ctor_ok m :
  Manager.run_alone ctor_ok m
  = let '(m', r) := Manager.get_instance ctor_ok m in
    (m', match r with
         | Some w => Manager.Returned (Some w)
         | None => Manager.Failed
         end).
Proof.
  unfold Manager.run_alone, Manager.get_instance, Manager.construct.
  destruct m as [[w|] k c]; simpl; [done|].
  unfold Manager.construct; simpl. destruct (ctor_ok k); done.
Qed.

(** C10. Two tasks that both find the attribute unset both enter the
    constructor: after the schedule below each task has returned, two
    wrappers were built, and the tasks hold different ones. *)
Theorem get_instance_race :
  let w := Manager.interleave Scenario.ctor_fine
             [true; false; true; true; true; false; false; false]
             Manager.start in
  Manager.constructed (Manager.shared w) = 2
  ∧ Manager.task1 w = Manager.Returned (Some {| Manager.serial := 0 |})
  ∧ Manager.task2 w = Manager.Returned (Some {| Manager.serial := 1 |}).
Proof. vm_compute. done. Qed.

(** ** The worklist loop *)

Section SchedulerFacts.
Context {FunctionRef : Type} `{!EqDecision FunctionRef, !Countable FunctionRef}.
Variable is_derived_func_name : string → bool.
Variable suggest : (FunctionRef → string) → FunctionRef → outcome.
Variable bv : BinaryView FunctionRef.

Local Abbreviation step := (loop_iteration is_derived_func_name suggest bv).
Local Abbreviation run := (worklist_loop is_derived_func_name suggest bv).
Local Abbreviation cases := (iteration is_derived_func_name suggest bv).
Local Abbreviation ready := (all_callees_done bv).
Local Abbreviation init := (initial_state bv).
Local Abbreviation wf := (loop_trace is_derived_func_name suggest bv).
Local Abbreviation aborted := (aborted_trace is_derived_func_name suggest bv).
Local Abbreviation inv := (at_test is_derived_func_name suggest bv).
Local Abbreviation obs := (observed is_derived_func_name suggest bv).
Local Abbreviation drain := (drains is_derived_func_name suggest bv).
Local Abbreviation V := (snapshot bv).
Local Abbreviation W := (weight bv).

(** *** The two [for] loops *)

Lemma append_not_done_eq (fs : list FunctionRef) (st : state FunctionRef) :
  append_not_done fs st
  = set_todo (todo st ++ filter (λ f, f ∉ done st) fs) st.
Proof.
  revert st. induction fs as [|f fs IH]; intros st; simpl.
  - unfold set_todo. rewrite app_nil_r. by destruct st.
  - fold (append_not_done fs). destruct (decide (f ∈ done st)) as [Hin|Hout].
    + rewrite IH, filter_cons_False by (intros ?; done). done.
    + rewrite IH, filter_cons_True by done. unfold set_todo, todo_append.
      simpl. by rewrite <- app_assoc.
Qed.

Lemma initial_state_eq :
  init
  = {| todo := functions bv; done := ∅; names := name bv; trace := [] |}.
Proof.
  unfold initial_state. rewrite append_not_done_eq.
  unfold set_todo, blank. simpl. f_equal.
  induction (functions bv) as [|f fs IH]; [done|].
  rewrite filter_cons_True by set_solver. by rewrite IH.
Qed.

Lemma all_callees_done_true current st :
  ready current st = true ↔ ∀ c, c ∈ callees bv current → c ∈ done st.
Proof.
  unfold all_callees_done. rewrite forallb_forall.
  split; intros Hc c Hin.
  - apply list_elem_of_In, Hc in Hin. by apply bool_decide_eq_true in Hin.
  - apply bool_decide_eq_true, Hc, list_elem_of_In, Hin.
Qed.

Lemma filter_not_done_nil (l : list FunctionRef) (X : gset FunctionRef) :
  (∀ c, c ∈ l → c ∈ X) → filter (λ c, c ∉ X) l = [].
Proof.
  intros Hl. induction l as [|c l IH]; [done|].
  rewrite filter_cons_False by (intros Hn; apply Hn, Hl; left).
  apply IH. intros c' Hc'. apply Hl. by right.
Qed.

(** [loop_iteration] takes one of the paths of [iteration]. *)
Lemma loop_iteration_iteration st : cases st (step st).
Proof.
  unfold loop_iteration.
  destruct (pop (todo st)) as [[rest current]|] eqn:P.
  2:{ apply pop_None in P. by constructor. }
  apply pop_Some in P. simpl.
  destruct (decide (current ∈ done st)) as [Hin|Hout].
  { by econstructor. }
  unfold finalize_if_ready.
  change (ready current (set_todo rest st)) with (ready current st).
  destruct (ready current st) eqn:R; simpl.
  - assert (Hnil : filter (λ c, c ∉ {[current]} ∪ done st)
                     (callees bv current) = []).
    { apply filter_not_done_nil. intros c Hc.
      pose proof (proj1 (all_callees_done_true _ _) R c Hc). set_solver. }
    destruct (is_derived_func_name (names st current)) eqn:D; simpl.
    + unfold requeue. rewrite append_not_done_eq.
      unfold set_todo, todo_append, done_add. simpl. rewrite Hnil.
      rewrite app_nil_r. by apply iter_keep.
    + unfold apply_suggestion. simpl.
      destruct (suggest (names st) current) as [s| |] eqn:S; rewrite ?D.
      * unfold requeue. rewrite append_not_done_eq.
      unfold set_todo, todo_append, done_add. simpl. rewrite Hnil.
        rewrite app_nil_r, <- app_assoc. by apply iter_rename.
      * unfold requeue. rewrite append_not_done_eq.
      unfold set_todo, todo_append, done_add. simpl. rewrite Hnil.
        rewrite app_nil_r, <- app_assoc. by apply iter_silent.
      * by apply iter_raise.
  - unfold requeue. rewrite append_not_done_eq.
    unfold set_todo, todo_append, done_add. simpl.
    rewrite <- app_assoc. by apply iter_unready.
Qed.

(** *** Traces *)

Lemma snoc_split {A} (tr t1 t2 : list A) (x e : A) :
  tr ++ [e] = t1 ++ x :: t2 →
  (t2 = [] ∧ t1 = tr ∧ x = e) ∨ (∃ t2', t2 = t2' ++ [e] ∧ tr = t1 ++ x :: t2').
Proof.
  destruct t2 as [|y t2 _] using rev_ind; intros E.
  - apply app_inj_tail in E as [-> ->]. left. auto.
  - right. exists t2.
    change (tr ++ [e] = t1 ++ (x :: t2) ++ [y]) in E.
    rewrite app_assoc in E. apply app_inj_tail in E as [-> ->]. auto.
Qed.

Lemma done_order_app (t1 t2 : list (event FunctionRef)) :
  done_order (t1 ++ t2) = done_order t1 ++ done_order t2.
Proof. apply omap_app. Qed.

Lemma applied_app (t1 t2 : list (event FunctionRef)) :
  applied (t1 ++ t2) = applied t1 ++ applied t2.
Proof. apply omap_app. Qed.

Lemma replay_snoc tr e :
  replay bv (tr ++ [e])
  = match e with
    | Apply f (Suggested s) => <[f := s]> (replay bv tr)
    | Apply _ _ | MarkDone _ => replay bv tr
    end.
Proof. unfold replay. by rewrite foldl_app. Qed.

Lemma replay_apply_done tr f o :
  replay bv (tr ++ [Apply f o; MarkDone f])
  = match o with
    | Suggested s => <[f := s]> (replay bv tr)
    | NoSuggestion | Raises => replay bv tr
    end.
Proof. unfold replay. rewrite foldl_app. simpl. by destruct o. Qed.

Lemma elem_of_done_order (tr : list (event FunctionRef)) f :
  f ∈ done_order tr ↔ MarkDone f ∈ tr.
Proof.
  unfold done_order. rewrite list_elem_of_omap. split.
  - intros ([g o|g] & Hin & E); simplify_eq. done.
  - intros Hin. by exists (MarkDone f).
Qed.

Lemma elem_of_applied (tr : list (event FunctionRef)) f :
  f ∈ applied tr ↔ ∃ o, Apply f o ∈ tr.
Proof.
  unfold applied. rewrite list_elem_of_omap. split.
  - intros ([g o|g] & Hin & E); simplify_eq. by exists o.
  - intros [o Hin]. by exists (Apply f o).
Qed.

(** A name changes only through a call on its function. *)
Lemma replay_not_applied tr f :
  f ∉ applied tr → replay bv tr f = name bv f.
Proof.
  induction tr as [|e tr IH] using rev_ind; [done|].
  rewrite applied_app, replay_snoc. intros Hn.
  destruct e as [g [s| |]|g]; simpl in Hn; try (apply IH; set_solver).
  rewrite fn_lookup_insert_ne by set_solver. apply IH. set_solver.
Qed.

(** Every call in a trace of the loop is on a function that is then marked
    done, and no function is called twice. *)
Lemma loop_trace_applied tr :
  wf tr → (∀ f, f ∈ applied tr → f ∈ done_order tr) ∧ NoDup (applied tr).
Proof.
  induction 1 as [|tr f _ [IH1 IH2] Hf Hc Hd|tr f o _ [IH1 IH2] Hf Hc Hd Ho Hr].
  - split; [set_solver|constructor].
  - rewrite applied_app, done_order_app. simpl. rewrite app_nil_r.
    split; [set_solver|done].
  - rewrite applied_app, done_order_app. simpl. split; [set_solver|].
    apply NoDup_app. split; [done|]. split; [|apply NoDup_singleton].
    intros g Hg. apply IH1 in Hg. set_solver.
Qed.

(** No function is marked done twice. *)
Lemma loop_trace_nodup tr : wf tr → NoDup (done_order tr).
Proof.
  induction 1 as [|tr f _ IH Hf Hc Hd|tr f o _ IH Hf Hc Hd Ho Hr].
  - constructor.
  - rewrite done_order_app. simpl. apply NoDup_app.
    split; [done|]. split; [set_solver|apply NoDup_singleton].
  - rewrite done_order_app. simpl. apply NoDup_app.
    split; [done|]. split; [set_solver|apply NoDup_singleton].
Qed.

(** The callees of a function marked done were marked done ahead of it. *)
Lemma loop_trace_callees tr :
  wf tr →
  ∀ l1 f l2, done_order tr = l1 ++ f :: l2 →
  ∀ c, c ∈ callees bv f → c ∈ l1.
Proof.
  assert (Hstep : ∀ (l : list FunctionRef) g,
    (∀ l1 f l2, l = l1 ++ f :: l2 → ∀ c, c ∈ callees bv f → c ∈ l1) →
    (∀ c, c ∈ callees bv g → c ∈ l) →
    ∀ l1 f l2, l ++ [g] = l1 ++ f :: l2 → ∀ c, c ∈ callees bv f → c ∈ l1).
  { intros l g IH Hg l1 f l2 E c Hc.
    apply snoc_split in E as [(-> & -> & ->)|(l2' & -> & ->)].
    - by apply Hg.
    - by eapply IH. }
  induction 1 as [|tr f _ IH Hf Hc Hd|tr f o _ IH Hf Hc Hd Ho Hr].
  - intros [|??] ???; discriminate.
  - rewrite done_order_app. simpl. by apply Hstep.
  - rewrite done_order_app. simpl. by apply Hstep.
Qed.

(** Every call is on a function whose name is not derived, and it
    returned. *)
Lemma loop_trace_call tr f o :
  wf tr → Apply f o ∈ tr →
  is_derived_func_name (name bv f) = false ∧ o ≠ Raises
  ∧ ∃ t1 t2, tr = t1 ++ Apply f o :: MarkDone f :: t2
             ∧ o = suggest (replay bv t1) f.
Proof.
  induction 1 as [|tr g _ IH Hf Hc Hd|tr g o' _ IH Hf Hc Hd Ho Hr];
    intros Hin.
  - by apply elem_of_nil in Hin.
  - apply elem_of_app in Hin as [Hin|Hin]; [|set_solver].
    destruct (IH Hin) as (? & ? & t1 & t2 & -> & ?).
    repeat split; try done. exists t1, (t2 ++ [MarkDone g]).
    by rewrite <- !app_assoc.
  - apply elem_of_app in Hin as [Hin|Hin].
    + destruct (IH Hin) as (? & ? & t1 & t2 & -> & ?).
      repeat split; try done.
      exists t1, (t2 ++ [Apply g o'; MarkDone g]).
      by rewrite <- !app_assoc.
    + assert (f = g ∧ o = o') as [-> ->] by set_solver.
      repeat split; try done. exists tr, []. done.
Qed.

(** A function with a name that is not derived is marked done right after
    a call on it; one with a derived name is never called. *)
Lemma loop_trace_asked tr f :
  wf tr → f ∈ done_order tr →
  if is_derived_func_name (name bv f) then f ∉ applied tr
  else ∃ t1 t2 o, tr = t1 ++ Apply f o :: MarkDone f :: t2.
Proof.
  intros Hwf Hin.
  destruct (is_derived_func_name (name bv f)) eqn:D.
  - intros [o Ho]%elem_of_applied.
    destruct (loop_trace_call tr f o Hwf Ho) as [D' _]. congruence.
  - revert Hin.
    induction Hwf as [|tr g _ IH Hf Hc Hd|tr g o' _ IH Hf Hc Hd Ho Hr];
      rewrite ?done_order_app; simpl; intros Hin.
    + by apply elem_of_nil in Hin.
    + apply elem_of_app in Hin as [Hin|Hin].
      * destruct (IH Hin) as (t1 & t2 & o & ->).
        exists t1, (t2 ++ [MarkDone g]), o. by rewrite <- !app_assoc.
      * assert (f = g) as -> by set_solver. congruence.
    + apply elem_of_app in Hin as [Hin|Hin].
      * destruct (IH Hin) as (t1 & t2 & o & ->).
        exists t1, (t2 ++ [Apply g o'; MarkDone g]), o.
        by rewrite <- !app_assoc.
      * assert (f = g) as -> by set_solver. exists tr, [], o'. done.
Qed.

(** *** The invariant of the loop *)

Lemma initial_at_test : inv init.
Proof.
  rewrite initial_state_eq. split; simpl.
  - constructor.
  - set_solver.
  - done.
  - auto.
Qed.

Lemma at_test_fresh_name st f :
  inv st → f ∉ done st → names st f = name bv f.
Proof.
  intros [Htr Hd Hn _] Hf. rewrite Hn. apply replay_not_applied.
  intros Ha. apply (proj1 (loop_trace_applied _ Htr)) in Ha.
  by apply Hf, Hd.
Qed.

(** Every path through the body keeps the invariant; a path that raises
    leaves a state with an aborted trace. *)
Lemma iteration_at_test st r :
  cases st r → inv st →
  match r with
  | Continue st' => inv st'
  | Exit st' => st' = st ∧ todo st = []
  | Abort st' => obs st' ∧ aborted (trace st')
  end.
Proof.
  intros Hc Hinv. pose proof Hinv as [Htr Hd Hn Hp].
  destruct Hc as [E|rest cur E Hin|rest cur E Hout R|rest cur E Hout R D
                 |rest cur s E Hout R D S|rest cur E Hout R D S
                 |rest cur E Hout R D S].
  (* a function that is finalized still has the name it had at the start *)
  4-7: rewrite (at_test_fresh_name st cur Hinv Hout) in D.
  4-7: pose proof (proj1 (all_callees_done_true _ _) R) as Hcs.
  4-7: assert (Hcs' : ∀ c, c ∈ callees bv cur → c ∈ done_order (trace st))
    by (intros c Hc; by apply Hd, Hcs).
  4-7: assert (Hout' : cur ∉ done_order (trace st)) by (by rewrite <- Hd).
  (* a call that returned *)
  5-6: split; simpl;
    [ apply trace_apply; try done; by rewrite <- Hn
    | intros f; rewrite done_order_app; simpl; set_solver
    | by rewrite replay_apply_done, Hn
    | intros f Hf; destruct (Hp f Hf) as [?|Hin']; [left; set_solver|];
      right; by rewrite <- E ].
  - done.
  - split; simpl; try done. intros f Hf.
    destruct (Hp f Hf) as [?|Hin']; [by left|]. rewrite E in Hin'.
    apply elem_of_app in Hin' as [?|Hin']; [by right|].
    apply list_elem_of_singleton in Hin' as ->. by left.
  - split; simpl; try done. intros f Hf.
    destruct (Hp f Hf) as [?|Hin']; [by left|]. right. rewrite E in Hin'.
    set_solver.
  - split; simpl.
    + by apply trace_keep.
    + intros f. rewrite done_order_app. simpl. set_solver.
    + by rewrite replay_snoc.
    + intros f Hf. destruct (Hp f Hf) as [?|Hin']; [left; set_solver|].
      right. by rewrite <- E.
  - assert (Hab : aborted (trace st ++ [Apply cur Raises])).
    { exists (trace st), cur. repeat split; try done. by rewrite <- Hn. }
    split; [|done]. split; simpl.
    + by right.
    + intros f. rewrite done_order_app. simpl. rewrite app_nil_r. apply Hd.
    + by rewrite replay_snoc.
Qed.

Lemma at_test_observed st : inv st → obs st.
Proof. intros [Htr Hd Hn _]. split; auto. Qed.

Lemma run_at_test n st :
  inv st →
  match run n st with
  | Running st' | Finished st' => inv st'
  | Raised st' => obs st' ∧ aborted (trace st')
  end.
Proof.
  revert st. induction n as [|n IH]; intros st Hinv; simpl; [done|].
  pose proof (iteration_at_test st _ (loop_iteration_iteration st) Hinv) as Hs.
  destruct (step st) as [st'|st'|st'].
  - by apply IH.
  - by destruct Hs as [-> _].
  - done.
Qed.

Lemma run_observed n : obs (state_of (run n init)).
Proof.
  pose proof (run_at_test n init initial_at_test) as Hr.
  destruct (run n init); simpl; try by apply at_test_observed.
  by destruct Hr.
Qed.

(** *** What an observed state satisfies *)

Lemma observed_nodup st :
  obs st → NoDup (done_order (trace st)) ∧ NoDup (applied (trace st)).
Proof.
  intros [[Htr|(tr & f & E & Htr & Hf & _)] _ _].
  - split; [by apply loop_trace_nodup|by apply loop_trace_applied].
  - rewrite E, done_order_app, applied_app. simpl. rewrite app_nil_r.
    split; [by apply loop_trace_nodup|].
    destruct (loop_trace_applied _ Htr) as [Hsub Hnd].
    apply NoDup_app. split; [done|]. split; [|apply NoDup_singleton].
    intros g Hg. apply Hsub in Hg. set_solver.
Qed.

Lemma observed_callees st :
  obs st →
  ∀ l1 f l2, done_order (trace st) = l1 ++ f :: l2 →
  ∀ c, c ∈ callees bv f → c ∈ l1.
Proof.
  intros [[Htr|(tr & f & E & Htr & _)] _ _].
  - by apply loop_trace_callees.
  - rewrite E, done_order_app. simpl. rewrite app_nil_r.
    by apply loop_trace_callees.
Qed.

Lemma observed_call st f o :
  obs st → Apply f o ∈ trace st →
  is_derived_func_name (name bv f) = false.
Proof.
  intros [[Htr|(tr & g & E & Htr & _ & _ & D & _)] _ _] Hin.
  - by destruct (loop_trace_call _ _ _ Htr Hin).
  - rewrite E in Hin. apply elem_of_app in Hin as [Hin|Hin].
    + by destruct (loop_trace_call _ _ _ Htr Hin).
    + assert (f = g) as -> by set_solver. done.
Qed.

(** *** Running the loop *)

Lemma iteration_functional st r1 r2 : cases st r1 → cases st r2 → r1 = r2.
Proof.
  intros H1 H2.
  destruct H1; destruct H2;
    repeat match goal with
    | E1 : todo st = [], E2 : todo st = _ ++ [_] |- _ =>
        rewrite E1 in E2; by destruct (app_cons_not_nil _ _ _ E2)
    | E1 : todo st = _ ++ [_], E2 : todo st = _ ++ [_] |- _ =>
        rewrite E1 in E2; apply app_inj_tail in E2 as [-> ->]
    end; try done; congruence.
Qed.

Lemma step_eq st r : cases st r → step st = r.
Proof.
  intros Hc. apply (iteration_functional st); [|done].
  apply loop_iteration_iteration.
Qed.

Lemma run_add n k st :
  run (n + k) st
  = match run n st with Running st' => run k st' | r => r end.
Proof.
  revert st. induction n as [|n IH]; intros st; simpl; [done|].
  destruct (step st); [apply IH|done|done].
Qed.

Lemma run_finished_more n k st st' :
  run n st = Finished st' → n ≤ k → run k st = Finished st'.
Proof.
  intros R Hle. replace k with (n + (k - n)) by lia.
  by rewrite run_add, R.
Qed.

Lemma run_raised_more n k st st' :
  run n st = Raised st' → n ≤ k → run k st = Raised st'.
Proof.
  intros R Hle. replace k with (n + (k - n)) by lia.
  by rewrite run_add, R.
Qed.

(** The set [done] and the trace only grow. *)
Lemma iteration_grows st r :
  cases st r →
  let st' := match r with Continue s | Exit s | Abort s => s end in
  done st ⊆ done st' ∧ trace st `prefix_of` trace st'.
Proof.
  destruct 1; simpl; (split; [set_solver|]);
    try done; by apply prefix_app_r.
Qed.

Lemma run_grows n st :
  done st ⊆ done (state_of (run n st))
  ∧ trace st `prefix_of` trace (state_of (run n st)).
Proof.
  revert st. induction n as [|n IH]; intros st; simpl; [done|].
  pose proof (iteration_grows st _ (loop_iteration_iteration st)) as [Hd Ht].
  destruct (step st) as [st'|st'|st']; simpl in *; [|done|done].
  destruct (IH st') as [Hd' Ht']. split; [set_solver|by etrans].
Qed.

Lemma run_monotone n k st :
  n ≤ k →
  done (state_of (run n st)) ⊆ done (state_of (run k st))
  ∧ trace (state_of (run n st)) `prefix_of` trace (state_of (run k st)).
Proof.
  intros Hle. replace k with (n + (k - n)) by lia. rewrite run_add.
  destruct (run n st) as [st'|st'|st']; simpl; [apply run_grows|done|done].
Qed.

(** *** Fuel *)

Lemma weight_split (X : gset FunctionRef) c :
  c ∈ X → W X = cost bv c + W (X ∖ {[c]}).
Proof.
  intros Hc. unfold weight.
  rewrite (union_difference_singleton_L c X Hc) at 1.
  rewrite elements_union_singleton by set_solver. done.
Qed.

Lemma weight_snapshot : W V = 2 * size V + edges bv.
Proof.
  assert (L : ∀ l : list FunctionRef,
    sum_list_with (cost bv) l
    = 2 * length l + sum_list_with (λ f, length (callees bv f)) l).
  { induction l as [|f l IH]; simpl; [done|]. rewrite IH. unfold cost. lia. }
  unfold weight, edges. by rewrite L.
Qed.

Lemma weight_done_add (D : gset FunctionRef) c :
  c ∈ V → c ∉ D → W (V ∖ D) = cost bv c + W (V ∖ ({[c]} ∪ D)).
Proof.
  intros Hc Hn. rewrite (weight_split (V ∖ D) c) by set_solver.
  do 2 f_equal. set_solver.
Qed.

Lemma weight_mono (X Y : gset FunctionRef) : X ⊆ Y → W X ≤ W Y.
Proof.
  intros Hsub. unfold weight.
  rewrite (union_difference_L X Y Hsub) at 1.
  rewrite elements_disj_union by set_solver.
  rewrite sum_list_with_app. lia.
Qed.

Lemma weight_singleton c : W {[c]} = cost bv c.
Proof.
  unfold weight. rewrite elements_singleton. unfold sum_list_with.
  apply Nat.add_0_r.
Qed.

Lemma weight_insert (X : gset FunctionRef) c :
  c ∉ X → W ({[c]} ∪ X) = cost bv c + W X.
Proof.
  intros Hc. unfold weight. by rewrite elements_union_singleton.
Qed.

Lemma grown_refl ds st : grown bv ds st st.
Proof. split; [done|]. by left. Qed.

Lemma grown_trans ds1 ds2 ds st1 st2 st3 :
  ds1 ⊆ ds → ds2 ⊆ ds →
  grown bv ds1 st1 st2 → grown bv ds2 st2 st3 → grown bv ds st1 st3.
Proof.
  intros H1 H2 [S1 C1] [S2 C2]. split; [set_solver|].
  intros f Hf. destruct (C2 f Hf) as [Hf1|(x & Hx & Hr)].
  - destruct (C1 f Hf1) as [?|(x & Hx & Hr)]; [by left|].
    right. exists x. split; [|done]. by apply H1.
  - right. exists x. split; [|done]. by apply H2.
Qed.

(** A function on top of the worklist that is already done is dropped. *)
Lemma visit_stale st rest c :
  todo st = rest ++ [c] → c ∈ done st → drain st rest [c].
Proof.
  intros E Hin. exists 1. simpl.
  rewrite (step_eq st _ (iter_stale _ _ _ st rest c E Hin)). simpl.
  split; [done|]. split; [set_solver|].
  split; [split; [done|by left]|]. unfold pending. simpl. lia.
Qed.

(** A function on top of the worklist that is not done and whose callees
    are all done is finalized, which takes two evaluations of the test,
    unless the call raises. *)
Lemma visit_ready st rest c :
  todo st = rest ++ [c] → c ∉ done st → ready c st = true →
  ∃ k, match run k st with
       | Running st' => todo st' = rest ∧ done st' = {[c]} ∪ done st ∧ k = 2
       | Raised st' => done st' = done st ∧ k = 1
       | Finished _ => False
       end.
Proof.
  intros E Hout R.
  destruct (is_derived_func_name (names st c)) eqn:D;
    [|destruct (suggest (names st) c) as [s| |] eqn:S].
  - exists 2. simpl.
    rewrite (step_eq st _ (iter_keep _ _ _ st rest c E Hout R D)).
    erewrite step_eq; [|by apply (iter_stale _ _ _ _ rest c); set_solver].
    done.
  - exists 2. simpl.
    rewrite (step_eq st _ (iter_rename _ _ _ st rest c s E Hout R D S)).
    erewrite step_eq; [|by apply (iter_stale _ _ _ _ rest c); set_solver].
    done.
  - exists 2. simpl.
    rewrite (step_eq st _ (iter_silent _ _ _ st rest c E Hout R D S)).
    erewrite step_eq; [|by apply (iter_stale _ _ _ _ rest c); set_solver].
    done.
  - exists 1. simpl.
    rewrite (step_eq st _ (iter_raise _ _ _ st rest c E Hout R D S)).
    done.
Qed.

Lemma drains_nil st rest : todo st = rest → drain st rest [].
Proof.
  intros E. exists 0. simpl.
  split; [done|]. split; [set_solver|]. split; [apply grown_refl|lia].
Qed.

Lemma drains_snoc st rest ds d :
  drain st (rest ++ ds) [d] →
  (∀ st', todo st' = rest ++ ds → drain st' rest ds) →
  drain st rest (ds ++ [d]).
Proof.
  intros [k1 H1] H2. destruct (run k1 st) as [st1|st1|st1] eqn:R1.
  - destruct H1 as (T1 & D1 & G1 & B1).
    destruct (H2 st1 T1) as [k2 H3]. exists (k1 + k2).
    rewrite run_add, R1. rewrite length_app. simpl in *.
    destruct (run k2 st1) as [st2|st2|st2]; [|done|].
    + destruct H3 as (T2 & D2 & G2 & B2).
      split; [done|]. split; [|split].
      * intros x [Hx|Hx]%elem_of_app; [by apply D2|].
        apply G2, D1. done.
      * apply (grown_trans [d] ds _ st st1 st2); set_solver.
      * lia.
    + destruct H3 as (G2 & C & HC & HCr & B2). split.
      * apply (grown_trans [d] ds _ st st1 st2); set_solver.
      * exists C. split; [done|]. split; [|lia].
        intros x Hx. destruct (HCr x Hx) as (y & Hy & Hr).
        exists y. split; [set_solver|done].
  - exists k1. by rewrite R1.
  - exists k1. rewrite R1. destruct H1 as (G1 & C & HC & HCr & B1).
    rewrite length_app. simpl in *. split.
    + apply (grown_trans [d] [] _ st st1 st1);
        [set_solver|set_solver|done|apply grown_refl].
    + exists C. split; [done|]. split; [|lia].
      intros x Hx. destruct (HCr x Hx) as (y & Hy & Hr).
      exists y. split; [set_solver|done].
Qed.

Lemma drains_list ds :
  ∀ st rest,
    (∀ d, d ∈ ds → ∀ st' rest', todo st' = rest' ++ [d] → drain st' rest' [d]) →
    todo st = rest ++ ds → drain st rest ds.
Proof.
  induction ds as [|d ds IH] using rev_ind; intros st rest Hd E.
  - apply drains_nil. by rewrite app_nil_r in E.
  - apply drains_snoc.
    + apply Hd; [set_solver|]. by rewrite <- app_assoc.
    + intros st' E'. apply IH; [|done]. intros x Hx. apply Hd. set_solver.
Qed.

(** On a closed acyclic snapshot, a function on top of the worklist is
    taken off it, done. The induction is on the number of functions of the
    snapshot that are not among the callers above the function. *)
Lemma process :
  closed bv → acyclic bv →
  ∀ n anc c st rest,
    size (V ∖ anc) ≤ n → c ∈ V → (∀ a, a ∈ anc → path bv a c) →
    todo st = rest ++ [c] → drain st rest [c].
Proof.
  intros Hclosed Hacyc. induction n as [|n IH]; intros anc c st rest Hn Hc Hanc E.
  all: assert (Hca : c ∉ anc)
    by (intros Ha; apply (Hacyc c); [set_solver|by apply Hanc]).
  all: assert (Hpos : size (V ∖ anc) ≠ 0)
    by (intros Hz%size_empty_inv; set_solver).
  { lia. }
  destruct (decide (c ∈ done st)) as [Hin|Hout]; [by apply visit_stale|].
  destruct (ready c st) eqn:R.
  - destruct (visit_ready st rest c E Hout R) as [k Hk]. exists k.
    destruct (run k st) as [st'|st'|st']; [|done|].
    + destruct Hk as (T & D & ->). unfold grown, pending. rewrite D.
      split; [done|]. split; [set_solver|]. split; [split; [set_solver|]|].
      * intros f [->%elem_of_singleton|Hf]%elem_of_union; [|by left].
        right. exists c. split; [set_solver|done].
      * rewrite (weight_done_add (done st) c Hc Hout). unfold cost.
        simpl. lia.
    + destruct Hk as (D & ->). unfold grown, pending. rewrite D.
      split; [split; [done|by left]|].
      exists ∅. split; [set_solver|]. split; [set_solver|simpl; lia].
  - set (ucs := filter (λ d, d ∉ done st) (callees bv c)).
    set (st1 := {| todo := rest ++ [c] ++ ucs; done := done st;
                   names := names st; trace := trace st |}).
    assert (Hs : step st = Continue st1)
      by (apply step_eq; by apply iter_unready).
    assert (Hucs : ∀ d, d ∈ ucs → d ∈ callees bv c ∧ d ∉ done st).
    { intros d Hd. by apply list_elem_of_filter in Hd as [? ?]. }
    assert (Hlen : length ucs ≤ length (callees bv c))
      by apply length_filter.
    assert (Hup : ∀ f, (∃ d, d ∈ ucs ∧ rtc (edge bv) d f) → path bv c f).
    { intros f (d & Hd & Hr). eapply tc_rtc_r; [apply tc_once|done].
      by apply Hucs. }
    assert (H1 : drain st1 (rest ++ [c]) ucs).
    { apply drains_list; [|unfold st1; simpl; by rewrite <- app_assoc].
      intros d Hd st' rest' E'. destruct (Hucs d Hd) as [Hdc _].
      apply (IH (anc ∪ {[c]}) d); [| | |done].
      - assert (V ∖ (anc ∪ {[c]}) ⊂ V ∖ anc) as Hlt%subset_size by set_solver.
        lia.
      - apply elem_of_list_to_set. apply (Hclosed c d); [set_solver|done].
      - intros a [Ha| ->%elem_of_singleton]%elem_of_union.
        + eapply tc_r; [by apply Hanc|done].
        + by apply tc_once. }
    destruct H1 as [k1 H1]. destruct (run k1 st1) as [st2|st2|st2] eqn:R1.
    + destruct H1 as (T1 & D1 & [S1 C1] & B1). unfold pending in B1.
      change (done st1) with (done st) in *.
      assert (Hout2 : c ∉ done st2).
      { intros Hf. destruct (C1 c Hf) as [?|Hr]; [done|].
        apply (Hacyc c); [set_solver|by apply Hup]. }
      assert (R2 : ready c st2 = true).
      { apply all_callees_done_true. intros d Hd.
        destruct (decide (d ∈ done st)) as [?|Hnd]; [set_solver|].
        apply D1. by apply list_elem_of_filter. }
      assert (G2 : ∀ f, f ∈ done st2 →
                f ∈ done st ∨ ∃ d, d ∈ [c] ∧ rtc (edge bv) d f).
      { intros f Hf. destruct (C1 f Hf) as [?|Hr]; [by left|].
        right. exists c. split; [set_solver|]. by apply tc_rtc, Hup. }
      rewrite (weight_done_add (done st2) c Hc Hout2) in B1.
      unfold cost in B1.
      destruct (visit_ready st2 rest c T1 Hout2 R2) as [k2 H2].
      exists (S (k1 + k2)). simpl. rewrite Hs, run_add, R1.
      destruct (run k2 st2) as [st3|st3|st3]; [|done|].
      * destruct H2 as (T2 & D2 & ->). unfold grown, pending. rewrite D2.
        split; [done|]. split; [set_solver|].
        split; [split; [set_solver|]|simpl; lia].
        intros f [->%elem_of_singleton|Hf]%elem_of_union; [|by apply G2].
        right. exists c. split; [set_solver|done].
      * destruct H2 as (D2 & ->). unfold grown, pending. rewrite D2.
        split; [split; [set_solver|done]|].
        exists {[c]}. split; [set_solver|]. split.
        -- intros x ->%elem_of_singleton. exists c. split; [set_solver|done].
        -- rewrite (weight_done_add (done st2) c Hc Hout2).
           rewrite weight_singleton. unfold cost. simpl. lia.
    + done.
    + exists (S k1). simpl. rewrite Hs, R1.
      destruct H1 as ([S1 C1] & C & HC & HCr & B1). unfold pending in B1.
      change (done st1) with (done st) in *.
      assert (Hout2 : c ∉ done st2).
      { intros Hf. destruct (C1 c Hf) as [?|Hr]; [done|].
        apply (Hacyc c); [set_solver|by apply Hup]. }
      assert (HcC : c ∉ C).
      { intros Hf. apply (Hacyc c); [set_solver|]. by apply Hup, HCr. }
      unfold grown, pending. split; [split; [done|]|].
      * intros f Hf. destruct (C1 f Hf) as [?|Hr]; [by left|].
        right. exists c. split; [set_solver|]. by apply tc_rtc, Hup.
      * exists ({[c]} ∪ C). split; [set_solver|]. split.
        -- intros x [->%elem_of_singleton|Hx]%elem_of_union.
           ++ exists c. split; [set_solver|done].
           ++ exists c. split; [set_solver|]. by apply tc_rtc, Hup, HCr.
        -- rewrite weight_insert by done. unfold cost. simpl. lia.
Qed.

(** On a closed acyclic snapshot the loop is over within [fuel_bound]
    evaluations of its test. *)
Lemma run_ends :
  closed bv → acyclic bv →
  match run (fuel_bound bv) init with
  | Running _ => False
  | Finished _ | Raised _ => True
  end.
Proof.
  intros Hclosed Hacyc.
  assert (H0 : drain init [] (functions bv)).
  { apply drains_list; [|by rewrite initial_state_eq].
    intros d Hd st' rest' E'.
    apply (process Hclosed Hacyc (size V) ∅ d); [|set_solver|set_solver|done].
    apply subseteq_size. set_solver. }
  destruct H0 as [k H0].
  assert (Hw : pending bv init ≤ 2 * size V + edges bv).
  { rewrite <- weight_snapshot. apply weight_mono. set_solver. }
  destruct (run k init) as [st1|st1|st1] eqn:R1.
  - destruct H0 as (T1 & _ & _ & B1).
    assert (R2 : run (k + 1) init = Finished st1).
    { rewrite run_add, R1. simpl.
      by rewrite (step_eq st1 _ (iter_exit _ _ _ st1 T1)). }
    rewrite (run_finished_more _ (fuel_bound bv) _ _ R2); [done|].
    unfold fuel_bound. lia.
  - done.
  - destruct H0 as (_ & C & HC & _ & B1).
    pose proof (weight_mono _ _ HC) as HW. fold (pending bv st1) in HW.
    rewrite (run_raised_more _ (fuel_bound bv) _ _ R1); [done|].
    unfold fuel_bound. lia.
Qed.

(** *** Cycles *)

(** A set of functions each of which calls one of the set is a trap: none of
    them is ever ready, and one that is on the worklist stays there. The
    loop is then never left through its test. *)
Lemma trap_never_finishes (S : FunctionRef → Prop) :
  (∀ f, S f → ∃ c, c ∈ callees bv f ∧ S c) →
  ∀ n st,
    (∀ f, S f → f ∉ done st) → (∃ f, f ∈ todo st ∧ S f) →
    match run n st with
    | Running st' => (∀ f, S f → f ∉ done st') ∧ (∃ f, f ∈ todo st' ∧ S f)
    | Raised _ => True
    | Finished _ => False
    end.
Proof.
  intros Htrap. induction n as [|n IH]; intros st Hd (f & Hf & HS); simpl.
  { eauto. }
  assert (Hnr : ∀ g, S g → ready g st = false).
  { intros g Hg. destruct (ready g st) eqn:R; [|done].
    destruct (Htrap g Hg) as (c & Hc & HSc).
    destruct (Hd c HSc). by apply (proj1 (all_callees_done_true _ _) R). }
  pose proof (loop_iteration_iteration st) as Hc.
  destruct Hc as [E|rest cur E Hin|rest cur E Hout R|rest cur E Hout R D
                 |rest cur s E Hout R D Sg|rest cur E Hout R D Sg
                 |rest cur E Hout R D Sg].
  (* a function that is finalized is not of the trap *)
  4-6: assert (¬ S cur) by (intros HSc; rewrite (Hnr cur HSc) in R; done).
  4-6: apply IH; simpl;
    [intros g Hg; specialize (Hd g Hg); set_solver|exists f; by rewrite <- E].
  - rewrite E in Hf. by apply elem_of_nil in Hf.
  - apply IH; simpl; [done|]. exists f. split; [|done].
    rewrite E in Hf. apply elem_of_app in Hf as [?|Hf]; [done|].
    apply list_elem_of_singleton in Hf as ->. by destruct (Hd cur HS).
  - apply IH; simpl; [done|]. exists f. split; [|done].
    rewrite E in Hf. set_solver.
  - done.
Qed.

(** A function of the snapshot that is on a cycle keeps the loop from
    being left through its test, whatever the fuel. *)
Lemma cycle_never_finishes f n :
  f ∈ functions bv → path bv f f →
  match run n init with Finished _ => False | _ => True end.
Proof.
  intros Hf Hp.
  pose proof (trap_never_finishes (λ x, path bv x x)) as Ht.
  assert (Hnext : ∀ x, path bv x x → ∃ c, c ∈ callees bv x ∧ path bv c c).
  { intros x Hx. inversion Hx as [? ? Hxx|? c ? Hxc Hcx]; subst.
    - by exists x.
    - exists c. split; [done|]. eapply tc_r; [done|done]. }
  specialize (Ht Hnext).
  specialize (Ht n init). rewrite initial_state_eq in Ht. simpl in Ht.
  rewrite initial_state_eq.
  destruct (run n _); [done| |done].
  apply Ht; [set_solver|eauto].
Qed.

(** When the trap is closed under calls and the worklist holds nothing
    else, nothing is ever done and no call is ever made. *)
Lemma closed_trap_starves (S : FunctionRef → Prop) :
  (∀ f, S f → callees bv f ≠ []) →
  (∀ f c, S f → c ∈ callees bv f → S c) →
  ∀ n st,
    done st = ∅ → todo st ≠ [] → (∀ f, f ∈ todo st → S f) →
    ∃ st', run n st = Running st' ∧ done st' = ∅ ∧ trace st' = trace st
           ∧ length (todo st) + n ≤ length (todo st').
Proof.
  intros Hne Hcl. induction n as [|n IH]; intros st Hd Ht HS; simpl.
  { exists st. repeat split; try done. lia. }
  destruct (todo st) as [|x l _] eqn:E using rev_ind; [done|]. clear Ht.
  assert (HSx : S x) by (apply HS; set_solver).
  assert (Hout : x ∉ done st) by (rewrite Hd; set_solver).
  assert (R : ready x st = false).
  { destruct (ready x st) eqn:R; [|done].
    pose proof (proj1 (all_callees_done_true _ _) R) as Hr.
    destruct (callees bv x) as [|c cs] eqn:Ec; [by destruct (Hne x HSx)|].
    specialize (Hr c ltac:(left)). rewrite Hd in Hr. set_solver. }
  rewrite (step_eq st _ (iter_unready _ _ _ st l x E Hout R)).
  assert (Hall : filter (λ c, c ∉ done st) (callees bv x) = callees bv x).
  { rewrite Hd. induction (callees bv x) as [|c cs IHc]; [done|].
    rewrite filter_cons_True by set_solver. by rewrite IHc. }
  rewrite Hall.
  assert (Hlen : 1 ≤ length (callees bv x)).
  { pose proof (Hne x HSx). destruct (callees bv x); [done|simpl; lia]. }
  edestruct (IH {| todo := l ++ [x] ++ callees bv x; done := done st;
                   names := names st; trace := trace st |})
    as (st' & R' & D' & T' & L'); simpl; try done.
  - by destruct l.
  - intros f [Hf|Hf]%elem_of_app; [apply HS; set_solver|].
    apply elem_of_cons in Hf as [->|Hf]; [done|by apply (Hcl x)].
  - exists st'. repeat split; try done. simpl in L'.
    rewrite !length_app in *. simpl in *. lia.
Qed.

(** *** More on traces *)

(** The trace is determined by the order in which the functions are done. *)
Lemma loop_trace_expected tr :
  wf tr → tr = expected is_derived_func_name suggest bv (done_order tr).
Proof.
  induction 1 as [|tr f Htr IH Hf Hc Hd|tr f o Htr IH Hf Hc Hd Ho Hr].
  - done.
  - rewrite done_order_app. simpl. unfold expected. rewrite foldl_app. simpl.
    fold (expected is_derived_func_name suggest bv (done_order tr)).
    rewrite <- IH. unfold block. by rewrite Hd.
  - rewrite done_order_app. simpl. unfold expected. rewrite foldl_app. simpl.
    fold (expected is_derived_func_name suggest bv (done_order tr)).
    rewrite <- IH. unfold block. by rewrite Hd, Ho.
Qed.

(** The name of a function that was called on is the suggestion, if the
    call gave one, and the name it had otherwise. *)
Lemma replay_applied tr f o :
  NoDup (applied tr) → Apply f o ∈ tr →
  replay bv tr f = match o with
                   | Suggested s => s
                   | NoSuggestion | Raises => name bv f
                   end.
Proof.
  induction tr as [|e tr IH] using rev_ind; intros Hnd Hin.
  { by apply elem_of_nil in Hin. }
  rewrite applied_app in Hnd. apply NoDup_app in Hnd as (Hnd & Hdis & _).
  rewrite replay_snoc. apply elem_of_app in Hin as [Hin|Hin].
  - assert (Hf : f ∈ applied tr) by (apply elem_of_applied; eauto).
    destruct e as [g [s| |]|g]; try by apply IH.
    rewrite fn_lookup_insert_ne; [by apply IH|].
    intros ->. apply (Hdis f Hf). simpl. set_solver.
  - apply list_elem_of_singleton in Hin as <-.
    destruct o as [s| |].
    + by rewrite fn_lookup_insert.
    + apply replay_not_applied. intros Hf. apply (Hdis f Hf). simpl. set_solver.
    + apply replay_not_applied. intros Hf. apply (Hdis f Hf). simpl. set_solver.
Qed.

(** On a closed snapshot the loop never meets a function from outside. *)
Lemma run_within n st :
  closed bv →
  (∀ f, f ∈ todo st ∨ f ∈ done st → f ∈ functions bv) →
  ∀ f, f ∈ todo (state_of (run n st)) ∨ f ∈ done (state_of (run n st)) →
       f ∈ functions bv.
Proof.
  intros Hclosed. revert st. induction n as [|n IH]; intros st Hin; simpl.
  { done. }
  pose proof (loop_iteration_iteration st) as Hc.
  destruct Hc as [E|rest cur E Hi|rest cur E Hout R|rest cur E Hout R D
                 |rest cur s E Hout R D Sg|rest cur E Hout R D Sg
                 |rest cur E Hout R D Sg]; simpl.
  (* the function that is finalized was on the worklist *)
  4-6: apply IH; simpl; rewrite <- E; intros f [Hf|Hf]; [apply Hin; by left|];
    apply elem_of_union in Hf as [->%elem_of_singleton|Hf];
    [apply Hin; left; rewrite E; set_solver|apply Hin; by right].
  - done.
  - apply IH. simpl. intros f [Hf|Hf]; apply Hin; [|by right].
    left. rewrite E. set_solver.
  - apply IH. simpl. intros f [Hf|Hf]; [|apply Hin; by right].
    apply elem_of_app in Hf as [Hf|Hf];
      [apply Hin; left; rewrite E; set_solver|].
    apply elem_of_cons in Hf as [->|Hf];
      [apply Hin; left; rewrite E; set_solver|].
    apply list_elem_of_filter in Hf as [_ Hf].
    apply (Hclosed cur f); [|done]. apply Hin. left. rewrite E. set_solver.
  - intros f [Hf|Hf]; apply Hin; [|by right]. left. rewrite E. set_solver.
Qed.

(** A rank that drops along every call rules out cycles. *)
Lemma ranked_acyclic (rank : FunctionRef → nat) :
  (∀ a b, b ∈ callees bv a → rank b < rank a) → acyclic bv.
Proof.
  intros Hr f _ Hp.
  assert (Hlt : ∀ a b, path bv a b → rank b < rank a).
  { induction 1 as [a b Hab|a b c Hab _ IH].
    - by apply Hr.
    - specialize (Hr a b Hab). lia. }
  specialize (Hlt f f Hp). lia.
Qed.

(** *** The whole-program rename *)

(** C1. The classifier check of the whole-program rename. Take the
    function popped from the worklist, with all its callees done. If it is
    done already it is dropped and nothing else happens. Otherwise, if its
    name is classified as derived (meaningful), no call of [apply_suggestion]
    is made and it is added to [done]; if its name is not, [apply_suggestion]
    is called on it, once, and when the call returns, with or without a new
    name, the function is added to [done]. Over a whole run, every function
    handed to [apply_suggestion] has a name that is not classified as
    derived. *)
Theorem rename_only_placeholders :
  (∀ st rest current,
     todo st = rest ++ [current] →
     all_callees_done bv current st = true →
     if decide (current ∈ done st)
     then loop_iteration is_derived_func_name suggest bv st
          = Continue (set_todo rest st)
     else if is_derived_func_name (names st current)
     then ∃ st',
            loop_iteration is_derived_func_name suggest bv st = Continue st'
            ∧ trace st' = trace st ++ [MarkDone current]
            ∧ names st' = names st
            ∧ done st' = {[current]} ∪ done st
     else match suggest (names st) current with
          | Raises =>
              ∃ st',
                loop_iteration is_derived_func_name suggest bv st = Abort st'
                ∧ trace st' = trace st ++ [Apply current Raises]
          | o =>
              ∃ st',
                loop_iteration is_derived_func_name suggest bv st
                = Continue st'
                ∧ trace st' = trace st ++ [Apply current o; MarkDone current]
                ∧ names st' = match o with
                              | Suggested s => <[current := s]> (names st)
                              | NoSuggestion | Raises => names st
                              end
                ∧ done st' = {[current]} ∪ done st
          end)
  ∧ (∀ fuel f o,
       Apply f o ∈ trace (state_of
         (worklist_loop is_derived_func_name suggest bv fuel
            (initial_state bv))) →
       is_derived_func_name (name bv f) = false).
Proof.
  split.
  - intros st rest current E R.
    destruct (decide (current ∈ done st)) as [Hin|Hout].
    { apply step_eq. by apply (iter_stale _ _ _ st rest current). }
    destruct (is_derived_func_name (names st current)) eqn:D.
    { eexists.
      split; [apply step_eq; by apply (iter_keep _ _ _ st rest current)|].
      repeat split. }
    destruct (suggest (names st) current) as [s| |] eqn:S.
    + eexists.
      split; [apply step_eq; by apply (iter_rename _ _ _ st rest current s)|].
      repeat split.
    + eexists.
      split; [apply step_eq; by apply (iter_silent _ _ _ st rest current)|].
      repeat split.
    + eexists.
      split; [apply step_eq; by apply (iter_raise _ _ _ st rest current)|].
      repeat split.
  - intros fuel f o. apply observed_call, run_observed.
Qed.

(** C5. Dependency order. In every state a run goes through, if [A] is
    done, [B] is a callee of [A] and no path leads from [B] back to [A], then
    [B] was marked done strictly before [A]. And whenever an iteration adds a
    function to [done], all callees of that function are in [done] before
    the iteration. *)
Theorem callee_before_caller :
  (∀ fuel A B,
     let st := state_of (worklist_loop is_derived_func_name suggest bv fuel
                           (initial_state bv)) in
     B ∈ callees bv A → ¬ path bv B A → A ∈ done st →
     before B A (done_order (trace st)))
  ∧ (∀ st st' f,
       loop_iteration is_derived_func_name suggest bv st = Continue st' →
       f ∉ done st → f ∈ done st' →
       ∀ c, c ∈ callees bv f → c ∈ done st).
Proof.
  split.
  - intros fuel A B st HB _ HA. pose proof (run_observed fuel) as Hobs.
    fold st in Hobs. apply (obs_done _ _ _ _ Hobs) in HA.
    apply list_elem_of_split in HA as (l1 & l2 & E).
    pose proof (observed_callees st Hobs l1 A l2 E B HB) as HB1.
    apply list_elem_of_lookup in HB1 as [i Hi].
    exists i, (length l1). rewrite E. split; [by eapply lookup_lt_Some|].
    split; [by apply lookup_app_l_Some|]. by apply list_lookup_middle.
  - intros st st' f Hs Hout Hin.
    pose proof (loop_iteration_iteration st) as Hc. rewrite Hs in Hc.
    inversion Hc as [|? ? E ?|? ? E ? ?|rest cur E Ho R D
                    |rest cur s E Ho R D Sg|rest cur E Ho R D Sg|];
      subst; simpl in *; try done.
    all: assert (f = cur) as -> by set_solver.
    all: by apply all_callees_done_true.
Qed.

(** C7. Within a run, [done] only grows and the order of the [done.add]
    calls is only extended; [done] holds exactly the functions that were
    marked done, each of them marked once; and [apply_suggestion], which
    asks the model and commits the name, is called at most once per
    function. *)
Theorem done_grows_each_once fuel fuel' :
  let st := state_of (worklist_loop is_derived_func_name suggest bv fuel
                        (initial_state bv)) in
  let st' := state_of (worklist_loop is_derived_func_name suggest bv fuel'
                         (initial_state bv)) in
  fuel ≤ fuel' →
  done st ⊆ done st'
  ∧ done_order (trace st) `prefix_of` done_order (trace st')
  ∧ (∀ f, f ∈ done st' ↔ f ∈ done_order (trace st'))
  ∧ NoDup (done_order (trace st'))
  ∧ NoDup (applied (trace st')).
Proof.
  intros st st' Hle.
  destruct (run_monotone fuel fuel' init Hle) as [Hd [k Ht]].
  pose proof (run_observed fuel') as Hobs.
  destruct (observed_nodup _ Hobs) as [N1 N2].
  split; [done|]. split; [|split; [apply Hobs|done]].
  exists (done_order k). unfold st'. by rewrite Ht, done_order_app.
Qed.

(** How a run that is over has ended. *)
Lemma run_finished_empty n st st' : run n st = Finished st' → todo st' = [].
Proof.
  revert st. induction n as [|n IH]; intros st; simpl; [done|].
  pose proof (loop_iteration_iteration st) as Hc.
  destruct Hc; try done; try apply IH. by intros [= <-].
Qed.

Lemma at_test_all_done st :
  inv st → todo st = [] → ∀ f, f ∈ functions bv → f ∈ done st.
Proof.
  intros Hi Ht f Hf. destruct (at_pending _ _ _ _ Hi f Hf) as [?|Hin]; [done|].
  rewrite Ht in Hin. by apply elem_of_nil in Hin.
Qed.

Lemma run_raised_last n st st' :
  inv st → run n st = Raised st' →
  ∃ f, suggest (names st') f = Raises
       ∧ last (trace st') = Some (Apply f Raises).
Proof.
  intros Hi R. pose proof (run_at_test n st Hi) as Hr. rewrite R in Hr.
  destruct Hr as [Hobs (tr & f & E & _ & _ & _ & _ & S)].
  exists f. rewrite (obs_names _ _ _ _ Hobs), E, replay_snoc.
  split; [done|]. by rewrite last_snoc.
Qed.

(** C9. On a closed snapshot without cycles, self-loops included, the loop
    is over within [fuel_bound] evaluations of its test, a bound in the number
    of functions and of calls. If it is left through its test, the worklist is
    empty and every function of the snapshot is in [done]; it is left
    otherwise only when a call of [apply_suggestion] raised, and so, when no
    call can raise, it is left through its test. *)
Theorem acyclic_terminates :
  closed bv → acyclic bv →
  match worklist_loop is_derived_func_name suggest bv (fuel_bound bv)
          (initial_state bv) with
  | Finished st => todo st = [] ∧ ∀ f, f ∈ functions bv → f ∈ done st
  | Raised st => ∃ f, suggest (names st) f = Raises
                      ∧ last (trace st) = Some (Apply f Raises)
  | Running _ => False
  end.
Proof.
  intros Hclosed Hacyc. pose proof (run_ends Hclosed Hacyc) as He.
  destruct (run (fuel_bound bv) init) as [st|st|st] eqn:R; [done| |].
  - pose proof (run_finished_empty _ _ _ R) as Ht. split; [done|].
    apply at_test_all_done; [|done].
    pose proof (run_at_test (fuel_bound bv) init initial_at_test) as Hi.
    by rewrite R in Hi.
  - apply (run_raised_last (fuel_bound bv) init); [|done].
    apply initial_at_test.
Qed.

(** *** Calls that return without a suggestion *)

(** When no query of the model can raise, no exception ends the run. *)
Lemma run_never_raised n st :
  (∀ ns f, suggest ns f ≠ Raises) → inv st →
  match run n st with
  | Running st' | Finished st' => inv st'
  | Raised _ => False
  end.
Proof.
  intros Hnr Hi. pose proof (run_at_test n st Hi) as Hr.
  destruct (run n st) as [st'|st'|st']; [done|done|].
  destruct Hr as [_ (tr & f & _ & _ & _ & _ & _ & S)]. by apply Hnr in S.
Qed.

(** A function on which the call returned without a suggestion is done, and
    it has the name it had before the run. *)
Lemma at_test_unanswered st X :
  inv st → Apply X NoSuggestion ∈ trace st →
  X ∈ done st ∧ names st X = name bv X.
Proof.
  intros [Htr Hd Hn _] Hin. split.
  - apply Hd, (loop_trace_applied _ Htr), elem_of_applied. eauto.
  - rewrite Hn.
    apply (replay_applied _ X NoSuggestion); [|done].
    by apply loop_trace_applied.
Qed.

(** *** What the loop reaches, what it leaves alone *)

(** Whatever is on the worklist or done comes from a set that holds the
    snapshot and is closed under calls. *)
Lemma run_confined (P : FunctionRef → Prop) n st :
  (∀ f c, P f → c ∈ callees bv f → P c) →
  (∀ f, f ∈ todo st ∨ f ∈ done st → P f) →
  ∀ f, f ∈ todo (state_of (run n st)) ∨ f ∈ done (state_of (run n st)) → P f.
Proof.
  intros Hcl. revert st. induction n as [|n IH]; intros st Hin; simpl.
  { done. }
  pose proof (loop_iteration_iteration st) as Hc.
  destruct Hc as [E|rest cur E Hi|rest cur E Hout R|rest cur E Hout R D
                 |rest cur s E Hout R D Sg|rest cur E Hout R D Sg
                 |rest cur E Hout R D Sg]; simpl.
  4-6: apply IH; simpl; rewrite <- E; intros f [Hf|Hf]; [apply Hin; by left|];
    apply elem_of_union in Hf as [->%elem_of_singleton|Hf];
    [apply Hin; left; rewrite E; set_solver|apply Hin; by right].
  - done.
  - apply IH. simpl. intros f [Hf|Hf]; apply Hin; [|by right].
    left. rewrite E. set_solver.
  - apply IH. simpl. intros f [Hf|Hf]; [|apply Hin; by right].
    apply elem_of_app in Hf as [Hf|Hf];
      [apply Hin; left; rewrite E; set_solver|].
    apply elem_of_cons in Hf as [->|Hf];
      [apply Hin; left; rewrite E; set_solver|].
    apply list_elem_of_filter in Hf as [_ Hf].
    apply (Hcl cur f); [|done]. apply Hin. left. rewrite E. set_solver.
  - intros f [Hf|Hf]; apply Hin; [|by right]. left. rewrite E. set_solver.
Qed.

(** Only reachable functions are ever done. *)
Lemma done_reachable n f :
  f ∈ done (state_of (run n init)) → reachable bv f.
Proof.
  intros Hf. apply (run_confined (reachable bv) n init); [| |by right].
  - intros g c (h & Hh & Hr) Hc. exists h. split; [done|].
    eapply rtc_r; [done|done].
  - rewrite initial_state_eq. simpl. intros g [Hg|Hg]; [|set_solver].
    by exists g.
Qed.

(** At the test of the loop, [done] is closed under calls. *)
Lemma at_test_done_closed st f c :
  inv st → f ∈ done st → c ∈ callees bv f → c ∈ done st.
Proof.
  intros [Htr Hd _ _] Hf Hc. apply Hd in Hf.
  apply list_elem_of_split in Hf as (l1 & l2 & E).
  apply Hd. rewrite E. apply elem_of_app. left.
  by apply (loop_trace_callees _ Htr l1 f l2 E).
Qed.

(** When the loop is left through its test, all that is reachable is
    done. *)
Lemma finished_reachable_done n st f :
  run n init = Finished st → reachable bv f → f ∈ done st.
Proof.
  intros R (g & Hg & Hr).
  pose proof (run_at_test n init initial_at_test) as Hi.
  rewrite R in Hi.
  pose proof (at_test_all_done st Hi (run_finished_empty _ _ _ R) g Hg) as Hd.
  clear Hg. induction Hr as [g|g h f Hgh _ IH]; [done|].
  apply IH. by apply (at_test_done_closed st g h).
Qed.

(** X4. When the loop is left through its test, [done] holds exactly the
    functions that are reachable from [bv.functions] by calls: the functions
    the view lists and every function they call, directly or not, also one
    that the view does not list. *)
Theorem finished_done_is_reachable fuel st f :
  worklist_loop is_derived_func_name suggest bv fuel (initial_state bv)
  = Finished st →
  f ∈ done st ↔ reachable bv f.
Proof.
  intros R. split.
  - intros Hf. apply (done_reachable fuel). by rewrite R.
  - by apply (finished_reachable_done fuel).
Qed.

(** *** Functions on a cycle *)

Lemma reaches_cycle_callee f :
  reaches_cycle bv f → ∃ c, c ∈ callees bv f ∧ reaches_cycle bv c.
Proof.
  intros (c & Hr & Hp). destruct Hr as [f|f g c Hfg Hgc].
  - inversion Hp as [? ? Hff|? d ? Hfd Hdf]; subst.
    + exists f. split; [done|]. exists f. split; [done|by apply tc_once].
    + exists d. split; [done|]. exists d. split; [done|].
      eapply tc_r; [done|done].
  - exists g. split; [done|]. by exists c.
Qed.

(** No function of a trap is ever done. *)
Lemma trap_never_done (S : FunctionRef → Prop) :
  (∀ f, S f → ∃ c, c ∈ callees bv f ∧ S c) →
  ∀ n st, (∀ f, S f → f ∉ done st) →
          ∀ f, S f → f ∉ done (state_of (run n st)).
Proof.
  intros Htrap. induction n as [|n IH]; intros st Hd; simpl; [done|].
  assert (Hnr : ∀ g, S g → all_callees_done bv g st = false).
  { intros g Hg. destruct (all_callees_done bv g st) eqn:R; [|done].
    destruct (Htrap g Hg) as (c & Hc & HSc).
    destruct (Hd c HSc). by apply (proj1 (all_callees_done_true _ _) R). }
  pose proof (loop_iteration_iteration st) as Hc.
  destruct Hc as [E|rest cur E Hin|rest cur E Hout R|rest cur E Hout R D
                 |rest cur s E Hout R D Sg|rest cur E Hout R D Sg
                 |rest cur E Hout R D Sg]; simpl; try done.
  3-5: assert (¬ S cur) by (intros HSc; rewrite (Hnr cur HSc) in R; done).
  3-5: apply IH; simpl; intros g Hg; specialize (Hd g Hg); set_solver.
  - by apply IH.
  - by apply IH.
Qed.

(** X5. The loop is left through its test only when no reachable function
    is on a cycle: a self-recursive function, or any cycle of calls, reachable
    from [bv.functions] keeps the loop from ever being left that way,
    whatever the classifier and the model. *)
Theorem finished_only_without_cycles fuel st :
  worklist_loop is_derived_func_name suggest bv fuel (initial_state bv)
  = Finished st →
  ∀ f, reachable bv f → ¬ path bv f f.
Proof.
  intros R f (g & Hg & Hr) Hp.
  pose proof (trap_never_finishes (reaches_cycle bv) reaches_cycle_callee
                fuel init) as Ht.
  rewrite R in Ht. apply Ht.
  - rewrite initial_state_eq. simpl. set_solver.
  - exists g. rewrite initial_state_eq. simpl. split; [done|]. by exists f.
Qed.

(** X6. On a closed snapshot, with a model whose calls never raise, the
    loop is left through its test for some fuel exactly when the snapshot has
    no cycle; [fuel_bound] is then enough. *)
Theorem terminates_iff_acyclic :
  closed bv → (∀ ns f, suggest ns f ≠ Raises) →
  (∃ fuel st,
     worklist_loop is_derived_func_name suggest bv fuel (initial_state bv)
     = Finished st)
  ↔ acyclic bv.
Proof.
  intros Hclosed Hnr. split.
  - intros (fuel & st & R) f Hf Hp.
    pose proof (cycle_never_finishes f fuel Hf Hp) as Hn.
    by rewrite R in Hn.
  - intros Hacyc. exists (fuel_bound bv).
    pose proof (run_ends Hclosed Hacyc) as He.
    pose proof (run_at_test (fuel_bound bv) init initial_at_test) as Hi.
    destruct (run (fuel_bound bv) init) as [st|st|st]; [done|by exists st|].
    destruct Hi as [_ (tr & f & _ & _ & _ & _ & _ & S)]. by apply Hnr in S.
Qed.

(** X7. A function that is on a cycle of calls, or that calls one that is,
    is never finalized by the whole-program rename: in every state of every
    run it is not done, [apply_suggestion] was never called on it, and it has
    the name it had. *)
Theorem recursive_never_renamed fuel f :
  let st := state_of (worklist_loop is_derived_func_name suggest bv fuel
                        (initial_state bv)) in
  reaches_cycle bv f →
  (f ∉ done st) ∧ (f ∉ applied (trace st)) ∧ names st f = name bv f.
Proof.
  intros st Hf.
  assert (Hnd : ∀ g, reaches_cycle bv g → g ∉ done st).
  { intros g Hg. apply (trap_never_done (reaches_cycle bv)
                          reaches_cycle_callee fuel init); [|done].
    intros h _. rewrite initial_state_eq. simpl. set_solver. }
  pose proof (run_observed fuel) as Hobs.
  fold st in Hobs.
  assert (Hna : f ∉ applied (trace st)).
  { intros Ha.
    destruct (obs_trace _ _ _ _ Hobs) as [Htr|(tr & g & E & Htr & _ & Hc & _)].
    - apply (Hnd f Hf), (obs_done _ _ _ _ Hobs).
      by apply (loop_trace_applied _ Htr).
    - rewrite E, applied_app in Ha. simpl in Ha.
      assert (Hdo : done_order (trace st) = done_order tr).
      { rewrite E, done_order_app. simpl. by rewrite app_nil_r. }
      apply elem_of_app in Ha as [Ha|Ha].
      + apply (Hnd f Hf), (obs_done _ _ _ _ Hobs). rewrite Hdo.
        by apply (loop_trace_applied _ Htr).
      + apply list_elem_of_singleton in Ha as ->.
        destruct (reaches_cycle_callee g Hf) as (c & Hcg & Hcc).
        apply (Hnd c Hcc), (obs_done _ _ _ _ Hobs). rewrite Hdo.
        by apply Hc. }
  split; [by apply Hnd|]. split; [done|].
  rewrite (obs_names _ _ _ _ Hobs). by apply replay_not_applied.
Qed.

(** *** Names *)

Lemma app_snoc_cases {A} (t1 t2 tr : list A) (e : A) :
  t1 ++ t2 = tr ++ [e] →
  (t2 = [] ∧ t1 = tr ++ [e]) ∨ (∃ t2', t2 = t2' ++ [e] ∧ tr = t1 ++ t2').
Proof.
  destruct t2 as [|y t2 _] using rev_ind; intros E.
  - left. by rewrite app_nil_r in E.
  - right. exists t2. rewrite app_assoc in E.
    by apply app_inj_tail in E as [-> ->].
Qed.

Lemma replay_app_not_applied t1 t2 c :
  c ∉ applied t2 → replay bv (t1 ++ t2) c = replay bv t1 c.
Proof.
  induction t2 as [|e t2 IH] using rev_ind; intros Hc.
  { by rewrite app_nil_r. }
  rewrite applied_app in Hc. rewrite app_assoc, replay_snoc.
  destruct e as [g [s| |]|g]; simpl in Hc; try (apply IH; set_solver).
  rewrite fn_lookup_insert_ne by set_solver. apply IH. set_solver.
Qed.

(** A call is made with the names the host holds at that time, and the
    callees of its function are done by then. *)
Lemma loop_trace_query tr :
  wf tr →
  ∀ t1 f o t2, tr = t1 ++ Apply f o :: t2 →
    o = suggest (replay bv t1) f
    ∧ ∀ c, c ∈ callees bv f → c ∈ done_order t1.
Proof.
  induction 1 as [|tr g _ IH Hg Hc Hd|tr g o' _ IH Hg Hc Hd Ho Hr];
    intros t1 f o t2 E.
  - by destruct t1.
  - apply snoc_split in E as [(_ & _ & [=])|(t2' & _ & E)].
    by apply (IH _ _ _ t2').
  - change (tr ++ [Apply g o'; MarkDone g])
      with (tr ++ [Apply g o'] ++ [MarkDone g]) in E.
    rewrite app_assoc in E.
    apply snoc_split in E as [(_ & _ & [=])|(t2' & _ & E)].
    apply snoc_split in E as [(_ & -> & [= -> ->])|(t2'' & _ & E)].
    + done.
    + by apply (IH _ _ _ t2'').
Qed.

(** Once a function is done, no call is made on it. *)
Lemma loop_trace_later_calls tr :
  wf tr →
  ∀ t1 t2 c, tr = t1 ++ t2 → c ∈ done_order t1 → c ∉ applied t2.
Proof.
  induction 1 as [|tr g _ IH Hg Hc Hd|tr g o' _ IH Hg Hc Hd Ho Hr];
    intros t1 t2 c E Hin.
  - symmetry in E. apply app_eq_nil in E as [_ ->]. set_solver.
  - symmetry in E. apply app_snoc_cases in E as [[-> _]|(t2' & -> & E)].
    + set_solver.
    + rewrite applied_app. simpl. rewrite app_nil_r. by apply (IH t1).
  - change (tr ++ [Apply g o'; MarkDone g])
      with (tr ++ [Apply g o'] ++ [MarkDone g]) in E.
    rewrite app_assoc in E. symmetry in E.
    apply app_snoc_cases in E as [[-> _]|(t2' & -> & E)]; [set_solver|].
    rewrite applied_app. simpl. rewrite app_nil_r. symmetry in E.
    apply app_snoc_cases in E as [[-> _]|(t2'' & -> & E)]; [set_solver|].
    rewrite applied_app. simpl. intros [Ha| ->%list_elem_of_singleton]%elem_of_app.
    + by apply (IH t1 t2'' c E).
    + apply Hg. rewrite E, done_order_app. set_solver.
Qed.

(** X8. Callee names are final when the caller is queried. Whenever
    [apply_suggestion] is called on a function in a whole-program run, the
    model is asked with the names the host holds at that moment, every callee
    of the function is done, and each callee has at that moment the name it
    has in every later state of the run. *)
Theorem caller_sees_final_callee_names fuel t1 f o t2 :
  let st := state_of (worklist_loop is_derived_func_name suggest bv fuel
                        (initial_state bv)) in
  trace st = t1 ++ Apply f o :: t2 →
  o = suggest (replay bv t1) f
  ∧ ∀ c, c ∈ callees bv f → c ∈ done st ∧ replay bv t1 c = names st c.
Proof.
  intros st E.
  pose proof (run_observed fuel) as Hobs.
  fold st in Hobs. rewrite (obs_names _ _ _ _ Hobs).
  assert (Hwf : ∀ tr t3, wf tr → tr = t1 ++ Apply f o :: t3 →
            o = suggest (replay bv t1) f
            ∧ ∀ c, c ∈ callees bv f →
                   c ∈ done_order tr ∧ replay bv t1 c = replay bv tr c).
  { intros tr t3 Htr Et.
    destruct (loop_trace_query tr Htr _ _ _ _ Et) as [Ho Hc].
    split; [done|]. intros c Hcf. specialize (Hc c Hcf). split.
    - rewrite Et, done_order_app. set_solver.
    - rewrite Et. symmetry. apply replay_app_not_applied.
      by apply (loop_trace_later_calls tr Htr t1 _ c Et). }
  destruct (obs_trace _ _ _ _ Hobs)
    as [Htr|(tr & g & Et & Htr & _ & Hc & _ & Sg)].
  - destruct (Hwf _ _ Htr E) as [Ho Hcs]. split; [done|].
    intros c Hcf. destruct (Hcs c Hcf). split; [|done].
    by apply (obs_done _ _ _ _ Hobs).
  - assert (Hdo : ∀ c, c ∈ done_order tr → c ∈ done st).
    { intros c Hin. apply (obs_done _ _ _ _ Hobs).
      rewrite Et, done_order_app. set_solver. }
    rewrite Et in E |- *. rewrite replay_snoc.
    apply snoc_split in E as [(_ & -> & [= -> ->])|(t2' & _ & E)].
    + split; [done|]. intros c Hcf. split; [|done]. by apply Hdo, Hc.
    + destruct (Hwf _ _ Htr E) as [Ho Hcs]. split; [done|].
      intros c Hcf. destruct (Hcs c Hcf). split; [by apply Hdo|done].
Qed.

(** X9. In a whole-program run a name changes only by a suggestion that
    was committed for its function. In every state of every run: a function
    whose name is classified as derived has the name it had, and so has every
    function that is not done; a function for which a suggestion was
    committed has that suggestion as its name; and a function whose name
    differs from the one it had is done and got it from such a suggestion. *)
Theorem names_change_by_suggestion_only fuel f :
  let st := state_of (worklist_loop is_derived_func_name suggest bv fuel
                        (initial_state bv)) in
  (is_derived_func_name (name bv f) = true → names st f = name bv f)
  ∧ (f ∉ done st → names st f = name bv f)
  ∧ (∀ s, Apply f (Suggested s) ∈ trace st → names st f = s)
  ∧ (names st f ≠ name bv f →
     f ∈ done st ∧ ∃ s, Apply f (Suggested s) ∈ trace st).
Proof.
  intros st.
  pose proof (run_observed fuel) as Hobs.
  fold st in Hobs.
  destruct (observed_nodup _ Hobs) as [_ Hnd].
  rewrite (obs_names _ _ _ _ Hobs).
  assert (Hcall : ∀ o, Apply f o ∈ trace st → o ≠ Raises → f ∈ done st).
  { intros o Ho Hr. apply (obs_done _ _ _ _ Hobs).
    destruct (obs_trace _ _ _ _ Hobs) as [Htr|(tr & g & E & Htr & _)].
    - apply (loop_trace_applied _ Htr), elem_of_applied. eauto.
    - rewrite E in Ho |- *. rewrite done_order_app. simpl.
      rewrite app_nil_r. apply elem_of_app in Ho as [Ho|Ho].
      + apply (loop_trace_applied _ Htr), elem_of_applied. eauto.
      + apply list_elem_of_singleton in Ho. congruence. }
  assert (Hkeep : f ∉ applied (trace st) → replay bv (trace st) f = name bv f)
    by apply replay_not_applied.
  split; [|split; [|split]].
  - intros D. apply Hkeep. intros [o Ho]%elem_of_applied.
    pose proof (observed_call _ f o Hobs Ho). congruence.
  - intros Hout. destruct (decide (f ∈ applied (trace st))) as [Ha|Ha];
      [|by apply Hkeep].
    apply elem_of_applied in Ha as [o Ho].
    rewrite (replay_applied _ f o Hnd Ho).
    destruct o as [s| |]; try done. destruct Hout. by apply (Hcall _ Ho).
  - intros s Ho. by rewrite (replay_applied _ f _ Hnd Ho).
  - intros Hne. destruct (decide (f ∈ applied (trace st))) as [Ha|Ha];
      [|by destruct Hne; apply Hkeep].
    apply elem_of_applied in Ha as [o Ho].
    rewrite (replay_applied _ f o Hnd Ho) in Hne.
    destruct o as [s| |]; try done.
    split; [by apply (Hcall _ Ho)|by exists s].
Qed.

(** X10. Coverage. When the loop is left through its test,
    [apply_suggestion] has been called, once and with a call that returned,
    on exactly the reachable functions whose names are not classified as
    derived. *)
Theorem finished_calls_cover fuel st :
  worklist_loop is_derived_func_name suggest bv fuel (initial_state bv)
  = Finished st →
  NoDup (applied (trace st))
  ∧ (∀ f o, Apply f o ∈ trace st → o ≠ Raises)
  ∧ ∀ f, f ∈ applied (trace st)
         ↔ reachable bv f ∧ is_derived_func_name (name bv f) = false.
Proof.
  intros R.
  pose proof (run_at_test fuel init initial_at_test) as Hi.
  rewrite R in Hi. destruct Hi as [Htr Hd _ _].
  destruct (loop_trace_applied _ Htr) as [Hsub Hnd].
  split; [done|]. split.
  - intros f o Ho. by destruct (loop_trace_call _ f o Htr Ho) as (_ & ? & _).
  - intros f. split.
    + intros Ha. split.
      * apply (done_reachable fuel). rewrite R. simpl. by apply Hd, Hsub.
      * apply elem_of_applied in Ha as [o Ho].
        by destruct (loop_trace_call _ f o Htr Ho).
    + intros [Hr D].
      pose proof (finished_reachable_done fuel st f R Hr) as Hf.
      apply Hd in Hf.
      pose proof (loop_trace_asked _ f Htr Hf) as Hq.
      rewrite D in Hq. destruct Hq as (t1 & t2 & o & E).
      apply elem_of_applied. exists o. rewrite E. set_solver.
Qed.

End SchedulerFacts.

(** ** Failures of the model *)

Section OracleFailure.
Context {FunctionRef : Type} `{!EqDecision FunctionRef, !Countable FunctionRef}.
Variable is_derived_func_name : string → bool.
Variable bv : BinaryView FunctionRef.

(** The oracle returns, whatever the model does. *)
Lemma name_oracle_returns
    (model : (FunctionRef → string) → FunctionRef → answer) ns f :
  name_oracle model ns f ≠ Raises.
Proof. unfold name_oracle. by destruct (model ns f). Qed.

Section TwoModels.
Variables suggest1 suggest2 : (FunctionRef → string) → FunctionRef → outcome.
Hypothesis returns1 : ∀ ns f, suggest1 ns f ≠ Raises.
Hypothesis returns2 : ∀ ns f, suggest2 ns f ≠ Raises.

Local Abbreviation step1 := (loop_iteration is_derived_func_name suggest1 bv).
Local Abbreviation step2 := (loop_iteration is_derived_func_name suggest2 bv).
Local Abbreviation inv1 := (at_test is_derived_func_name suggest1 bv).
Local Abbreviation inv2 := (at_test is_derived_func_name suggest2 bv).
Local Abbreviation cases2 := (iteration is_derived_func_name suggest2 bv).

(** The second run takes the path of the first whenever its state allows
    it. *)
Lemma step2_eq st r : cases2 st r → step2 st = r.
Proof. apply step_eq. Qed.

(** What the model answers has no part in what an iteration does to the
    worklist and to [done]. *)
Lemma iteration_same_schedule st1 st2 :
  inv1 st1 → inv2 st2 → same_schedule st1 st2 →
  match step1 st1, step2 st2 with
  | Continue st1', Continue st2' | Exit st1', Exit st2' =>
      same_schedule st1' st2'
  | _, _ => False
  end.
Proof.
  intros Hi1 Hi2 (Ht & Hd & Ho).
  assert (Hready : ∀ c, all_callees_done bv c st2 = all_callees_done bv c st1).
  { intros c. unfold all_callees_done. by rewrite Hd. }
  assert (Hname : ∀ c, c ∉ done st1 → names st2 c = names st1 c).
  { intros c Hc.
    rewrite (at_test_fresh_name _ _ _ st1 c Hi1 Hc).
    apply (at_test_fresh_name _ _ _ st2 c Hi2). by rewrite <- Hd. }
  pose proof (loop_iteration_iteration is_derived_func_name suggest1 bv st1)
    as Hc.
  destruct Hc as [E|rest cur E Hin|rest cur E Hout R|rest cur E Hout R D
                 |rest cur s E Hout R D S|rest cur E Hout R D S
                 |rest cur E Hout R D S];
    rewrite Ht in E; try rewrite <- Hready in R;
    try rewrite <- (Hname _ Hout) in D; try rewrite Hd in Hout.
  - rewrite (step2_eq st2 (Exit st2)); [|by apply iter_exit].
    done.
  - rewrite Hd in Hin.
    rewrite (step2_eq st2 _ (iter_stale _ _ _ st2 rest cur E Hin)).
    done.
  - rewrite (step2_eq st2 _ (iter_unready _ _ _ st2 rest cur E Hout R)).
    repeat split; simpl; [by rewrite Hd|done|done].
  - rewrite (step2_eq st2 _ (iter_keep _ _ _ st2 rest cur E Hout R D)).
    repeat split; simpl; [by rewrite Hd|].
    by rewrite !done_order_app, Ho.
  - destruct (suggest2 (names st2) cur) as [s2| |] eqn:S2.
    + rewrite (step2_eq st2 _ (iter_rename _ _ _ st2 rest cur s2 E Hout R D S2)).
      repeat split; simpl; [by rewrite Hd|].
      by rewrite !done_order_app, Ho.
    + rewrite (step2_eq st2 _ (iter_silent _ _ _ st2 rest cur E Hout R D S2)).
      repeat split; simpl; [by rewrite Hd|].
      by rewrite !done_order_app, Ho.
    + by apply returns2 in S2.
  - destruct (suggest2 (names st2) cur) as [s2| |] eqn:S2.
    + rewrite (step2_eq st2 _ (iter_rename _ _ _ st2 rest cur s2 E Hout R D S2)).
      repeat split; simpl; [by rewrite Hd|].
      by rewrite !done_order_app, Ho.
    + rewrite (step2_eq st2 _ (iter_silent _ _ _ st2 rest cur E Hout R D S2)).
      repeat split; simpl; [by rewrite Hd|].
      by rewrite !done_order_app, Ho.
    + by apply returns2 in S2.
  - by apply returns1 in S.
Qed.

(** Two runs on the same snapshot, with models that return, are at each
    evaluation of the test at the same point, with the same worklist, the
    same set [done] and the same order of the functions marked done. *)
Lemma run_same_schedule n st1 st2 :
  inv1 st1 → inv2 st2 → same_schedule st1 st2 →
  same_run (worklist_loop is_derived_func_name suggest1 bv n st1)
           (worklist_loop is_derived_func_name suggest2 bv n st2).
Proof.
  revert st1 st2. induction n as [|n IH]; intros st1 st2 Hi1 Hi2 Hs; [done|].
  simpl.
  pose proof (iteration_same_schedule st1 st2 Hi1 Hi2 Hs) as Hstep.
  pose proof (iteration_at_test is_derived_func_name suggest1 bv st1 _
                (loop_iteration_iteration _ _ _ st1) Hi1) as H1.
  pose proof (iteration_at_test is_derived_func_name suggest2 bv st2 _
                (loop_iteration_iteration _ _ _ st2) Hi2) as H2.
  destruct (step1 st1) as [a|a|a], (step2 st2) as [b|b|b]; try done.
  by apply IH.
Qed.

End TwoModels.


End OracleFailure.

(** ** The entry points *)

Section EntryPoints.
Context {FunctionRef : Type} `{!EqDecision FunctionRef, !Countable FunctionRef}.
Variable is_derived_func_name : string → bool.
Variable suggest : (FunctionRef → string) → FunctionRef → outcome.
Variable ctor_ok : nat → bool.

(** The whole-program entry point is the loop, once the wrapper is there. *)
Lemma rename_all_functions_loop bv fuel m :
  plugin_wrapper_rename_all_functions is_derived_func_name suggest bv ctor_ok
    fuel m
  = match Manager.get_instance ctor_ok m with
    | (m', Some _) =>
        (m', worklist_loop is_derived_func_name suggest bv fuel
               (initial_state bv))
    | (m', None) => (m', Raised (blank bv))
    end.
Proof.
  unfold plugin_wrapper_rename_all_functions.
  by destruct (Manager.get_instance ctor_ok m) as [m' [w|]].
Qed.

(** C2. The single-function path goes through the classifier before a
    name is applied. Once the wrapper is there, the path makes one call of
    [apply_suggestion] on the function. If the current name of the function
    is classified as derived (meaningful), the call commits no suggestion and
    every name is as before. If it is not, the call ends as the query of the
    model does, and a suggestion of the model becomes the name of the
    function, all other names staying as they are. When the constructor of
    the wrapper raises, no call is made. *)
Theorem rename_function_asks_classifier m (ns : FunctionRef → string) f :
  match Manager.get_instance ctor_ok m with
  | (m', Some _) =>
      ∃ st o,
        plugin_wrapper_rename_function is_derived_func_name suggest ctor_ok
          m ns f = (m', Some st)
        ∧ trace st = [Apply f o]
        ∧ if is_derived_func_name (ns f)
          then names st = ns ∧ ∀ s, o ≠ Suggested s
          else o = suggest ns f
               ∧ names st = match suggest ns f with
                            | Suggested s => <[f := s]> ns
                            | NoSuggestion | Raises => ns
                            end
  | (m', None) =>
      plugin_wrapper_rename_function is_derived_func_name suggest ctor_ok
        m ns f = (m', None)
  end.
Proof.
  unfold plugin_wrapper_rename_function.
  destruct (Manager.get_instance ctor_ok m) as [m' [w|]]; [|done].
  unfold apply_suggestion. simpl.
  destruct (is_derived_func_name (ns f)) eqn:D.
  - destruct (suggest ns f) as [s| |] eqn:S;
      eexists _, _; (split; [done|]); (split; [done|]); by split.
  - destruct (suggest ns f) as [s| |] eqn:S;
      eexists _, _; (split; [done|]); (split; [done|]); by split.
Qed.

End EntryPoints.

(** ** Scenarios *)

Section Scenarios.
Import Scenario.

(** *** The single-function path on a function with a meaningful name *)

(** [helper1] is named [ParseHeader], which the classifier takes for
    meaningful: the single-function path leaves the name alone, although the
    model has a suggestion. *)
Lemma rename_function_asks_classifier_witness :
  ∃ st o, plugin_wrapper_rename_function is_derived_func_name eager ctor_fine
            Manager.init (name named_helper) helper1
          = (Manager.store {| Manager.serial := 0 |}
               {| Manager._binja_function_name_gpt := None;
                  Manager.ctor_calls := 1; Manager.constructed := 1 |},
             Some st)
          ∧ trace st = [Apply helper1 o]
          ∧ names st = name named_helper ∧ ∀ s, o ≠ Suggested s.
Proof.
  exact (rename_function_asks_classifier is_derived_func_name eager ctor_fine
           Manager.init (name named_helper) helper1).
Defined.

(** [main] has a placeholder name: the path renames it. *)
Example rename_function_placeholder :
  ∃ m st, plugin_wrapper_rename_function is_derived_func_name eager ctor_fine
            Manager.init (name named_helper) main = (m, Some st)
          ∧ trace st = [Apply main (Suggested "renamed_sub_401000")]
          ∧ names st main = "renamed_sub_401000"
          ∧ names st helper1 = "ParseHeader".
Proof. do 2 eexists. split; [reflexivity|]. by repeat split. Qed.

(** *** Cycles *)

(** C3. On the snapshot [{a -> a}] and on the snapshot [{a -> b, b -> a}]
    the loop is never left: whatever the classifier and the model, after any
    number of evaluations of its test it is still running, with nothing done,
    no call made and a worklist longer than at the start. *)
Theorem cycles_never_terminate :
  (∀ classifier suggest fuel,
     ∃ st, worklist_loop classifier suggest self_loop fuel
             (initial_state self_loop) = Running st
           ∧ done st = ∅ ∧ trace st = [] ∧ 1 + fuel ≤ length (todo st))
  ∧ (∀ classifier suggest fuel,
       ∃ st, worklist_loop classifier suggest two_cycle fuel
               (initial_state two_cycle) = Running st
             ∧ done st = ∅ ∧ trace st = [] ∧ 2 + fuel ≤ length (todo st)).
Proof.
  split; intros classifier suggest fuel.
  - destruct (closed_trap_starves classifier suggest self_loop
                (λ f, f = main)) with (n := fuel) (st := initial_state self_loop)
      as (st & R & D & T & L); try done.
    + by intros f ->.
    + intros f c ->. simpl. set_solver.
    + intros f. rewrite initial_state_eq. simpl. set_solver.
    + exists st. rewrite initial_state_eq in L. by repeat split.
  - destruct (closed_trap_starves classifier suggest two_cycle
                (λ f, f = helper1 ∨ f = helper2))
      with (n := fuel) (st := initial_state two_cycle)
      as (st & R & D & T & L); try done.
    + by intros f [-> | ->].
    + intros f c [-> | ->]; simpl; set_solver.
    + intros f. rewrite initial_state_eq. simpl. set_solver.
    + exists st. rewrite initial_state_eq in L. by repeat split.
Qed.

(** *** The chain [main -> helper1 -> helper2] *)

Lemma chain_callees fs f c :
  c ∈ callees (chain fs) f →
  (f = main ∧ c = helper1) ∨ (f = helper1 ∧ c = helper2).
Proof.
  simpl. repeat case_decide; set_solver.
Qed.

Lemma chain_closed fs : fs ≡ₚ [main; helper1; helper2] → closed (chain fs).
Proof.
  intros Hp f c Hf Hc. simpl in *. rewrite Hp.
  apply chain_callees in Hc as [[_ ->]|[_ ->]]; set_solver.
Qed.

Lemma chain_acyclic fs : acyclic (chain fs).
Proof.
  apply (ranked_acyclic (chain fs)
           (λ f, if decide (f = main) then 2
                 else if decide (f = helper1) then 1 else 0)).
  intros a b Hab. apply chain_callees in Hab as [[-> ->]|[-> ->]]; by compute.
Qed.

(** A list without repetition whose elements are [main], [helper1] and
    [helper2], with [helper2] ahead of [helper1] ahead of [main]. *)
Lemma chain_order_unique (l5 l6 l4 l2 : list N) :
  NoDup (l5 ++ helper2 :: l6 ++ helper1 :: l4 ++ main :: l2) →
  (∀ x, x ∈ l5 ++ helper2 :: l6 ++ helper1 :: l4 ++ main :: l2 →
        x ∈ [main; helper1; helper2]) →
  l5 = [] ∧ l6 = [] ∧ l4 = [] ∧ l2 = [].
Proof.
  intros Hnd Hin.
  pose proof (submseteq_length _ _ (NoDup_submseteq _ _ Hnd Hin)) as Hlen.
  rewrite !length_app in Hlen. simpl in Hlen.
  rewrite !length_app in Hlen. simpl in Hlen.
  rewrite !length_app in Hlen. simpl in Hlen.
  destruct l5, l6, l4, l2; simpl in Hlen; try lia. done.
Qed.

(** C4. On the snapshot [{main -> helper1, helper1 -> helper2,
    helper2 -> []}], in whatever order [bv.functions] lists the three, with
    all three names classified as placeholders and a model that answers every
    query, the loop is left through its test within [fuel_bound] evaluations;
    it has then finalized [helper2], then [helper1], then [main], each by a
    call of [apply_suggestion] that committed the suggestion, the one for a
    caller asked for with the new name of its callee in place. *)
Theorem chain_scenario (fs : list N) (classifier : string → bool)
    (sugg : (N → string) → N → string) :
  fs ≡ₚ [main; helper1; helper2] →
  classifier "sub_401000" = false →
  classifier "sub_401100" = false →
  classifier "sub_401200" = false →
  let bv := chain fs in
  let s2 := sugg (name bv) helper2 in
  let n2 := <[helper2 := s2]> (name bv) in
  let s1 := sugg n2 helper1 in
  let n1 := <[helper1 := s1]> n2 in
  let s0 := sugg n1 main in
  ∃ st,
    worklist_loop classifier (λ ns f, Suggested (sugg ns f)) bv
      (fuel_bound bv) (initial_state bv) = Finished st
    ∧ done_order (trace st) = [helper2; helper1; main]
    ∧ trace st = [Apply helper2 (Suggested s2); MarkDone helper2;
                  Apply helper1 (Suggested s1); MarkDone helper1;
                  Apply main (Suggested s0); MarkDone main]
    ∧ names st = <[main := s0]> n1.
Proof.
  intros Hp H0 H1 H2 bv s2 n2 s1 n1 s0.
  set (suggest := λ (ns : N → string) (f : N), Suggested (sugg ns f)).
  pose proof (run_ends classifier suggest bv
                (chain_closed fs Hp) (chain_acyclic fs)) as He.
  pose proof (run_at_test classifier suggest bv (fuel_bound bv)
                (initial_state bv) (initial_at_test _ _ _)) as Hi.
  pose proof (run_within classifier suggest bv (fuel_bound bv)
                (initial_state bv) (chain_closed fs Hp)) as Hw.
  destruct (worklist_loop classifier suggest bv (fuel_bound bv)
              (initial_state bv)) as [st|st|st] eqn:R; [done| |].
  2:{ by destruct Hi as [_ (tr & f & _ & _ & _ & _ & _ & S)]. }
  pose proof (at_test_all_done _ _ _ st Hi
                (run_finished_empty _ _ _ _ _ _ R)) as Hall.
  destruct Hi as [Htr Hd Hn _]. simpl in Hw.
  exists st. split; [done|].
  assert (Hin : ∀ f, f ∈ done_order (trace st) → f ∈ [main; helper1; helper2]).
  { intros f Hf. rewrite <- Hp. apply Hw.
    - rewrite initial_state_eq. simpl. intros g [?|?]; [done|set_solver].
    - right. by apply Hd. }
  assert (Hm : main ∈ done_order (trace st)).
  { apply Hd, Hall. simpl. rewrite Hp. set_solver. }
  pose proof (loop_trace_nodup _ _ _ _ Htr) as Hnd.
  pose proof (loop_trace_callees _ _ _ _ Htr) as Hcs.
  apply list_elem_of_split in Hm as (l1 & l2 & E).
  assert (Hh1 : helper1 ∈ l1) by (apply (Hcs l1 main l2 E); by left).
  apply list_elem_of_split in Hh1 as (l3 & l4 & ->).
  rewrite <- app_assoc in E. simpl in E.
  assert (Hh2 : helper2 ∈ l3) by (apply (Hcs _ helper1 _ E); by left).
  apply list_elem_of_split in Hh2 as (l5 & l6 & ->).
  rewrite <- app_assoc in E. simpl in E.
  rewrite E in Hnd, Hin.
  destruct (chain_order_unique l5 l6 l4 l2 Hnd Hin) as (-> & -> & -> & ->).
  simpl in E. split; [done|].
  assert (Et : trace st = [Apply helper2 (Suggested s2); MarkDone helper2;
                           Apply helper1 (Suggested s1); MarkDone helper1;
                           Apply main (Suggested s0); MarkDone main]).
  { rewrite (loop_trace_expected _ _ _ _ Htr), E.
    unfold expected, block. simpl. by rewrite H0, H1, H2. }
  split; [done|]. by rewrite Hn, Et.
Qed.

(** The chain listed as [helper1; main; helper2], with the classifier of
    the scenarios and the model that prefixes names. *)
Lemma chain_scenario_witness :
  ∃ st,
    worklist_loop is_derived_func_name eager (chain [helper1; main; helper2])
      (fuel_bound (chain [helper1; main; helper2]))
      (initial_state (chain [helper1; main; helper2])) = Finished st
    ∧ done_order (trace st) = [helper2; helper1; main]
    ∧ trace st = [Apply helper2 (Suggested "renamed_sub_401200");
                  MarkDone helper2;
                  Apply helper1 (Suggested "renamed_sub_401100");
                  MarkDone helper1;
                  Apply main (Suggested "renamed_sub_401000");
                  MarkDone main]
    ∧ names st
      = <[main := "renamed_sub_401000"]>
          (<[helper1 := "renamed_sub_401100"]>
             (<[helper2 := "renamed_sub_401200"]>
                (name (chain [helper1; main; helper2])))).
Proof.
  apply (chain_scenario [helper1; main; helper2] is_derived_func_name
           (λ ns f, "renamed_" +:+ (ns f))).
  - apply perm_swap.
  - reflexivity.
  - reflexivity.
  - reflexivity.
Defined.

(** *** Witnesses on the chain *)

(** The first iteration on the chain finalizes [helper2]. *)
Lemma rename_only_placeholders_witness :
  ∃ st', loop_iteration is_derived_func_name eager chain0
           (initial_state chain0) = Continue st'
         ∧ trace st' = [Apply helper2 (Suggested "renamed_sub_401200");
                        MarkDone helper2]
         ∧ names st' = <[helper2 := "renamed_sub_401200"]> (name chain0)
         ∧ done st' = {[helper2]} ∪ ∅.
Proof.
  exact (proj1 (rename_only_placeholders is_derived_func_name eager chain0)
           (initial_state chain0) [main; helper1] helper2 eq_refl eq_refl).
Defined.

Lemma helper2_calls_nothing f : ¬ path chain0 helper2 f.
Proof.
  intros Hp. inversion Hp as [? ? He|? c ? He _]; subst;
    apply chain_callees in He as [[? _]|[? _]]; done.
Qed.

(** [helper2] is marked done ahead of its caller [helper1]. *)
Lemma callee_before_caller_witness :
  before helper2 helper1
    (done_order (trace (state_of
       (worklist_loop is_derived_func_name eager chain0 12
          (initial_state chain0))))).
Proof.
  apply (proj1 (callee_before_caller is_derived_func_name eager chain0)
           12 helper1 helper2).
  - simpl. set_solver.
  - apply helper2_calls_nothing.
  - apply (bool_decide_unpack (helper1 ∈ done _)). vm_compute. exact I.
Defined.

(** Between the third and the twelfth evaluation of the test. *)
Lemma done_grows_each_once_witness :
  done (state_of (worklist_loop is_derived_func_name eager chain0 3
                    (initial_state chain0)))
  ⊆ done (state_of (worklist_loop is_derived_func_name eager chain0 12
                      (initial_state chain0)))
  ∧ NoDup (applied (trace (state_of
      (worklist_loop is_derived_func_name eager chain0 12
         (initial_state chain0))))).
Proof.
  destruct (done_grows_each_once is_derived_func_name eager chain0 3 12
              ltac:(lia)) as (Hd & _ & _ & _ & Ha).
  split; [exact Hd|exact Ha].
Defined.

(** The chain is closed and acyclic. *)
Lemma acyclic_terminates_witness :
  match worklist_loop is_derived_func_name eager chain0 (fuel_bound chain0)
          (initial_state chain0) with
  | Finished st => todo st = [] ∧ ∀ f, f ∈ functions chain0 → f ∈ done st
  | Raised st => ∃ f, eager (names st) f = Raises
                      ∧ last (trace st) = Some (Apply f Raises)
  | Running _ => False
  end.
Proof.
  apply (acyclic_terminates is_derived_func_name eager chain0).
  - apply chain_closed. reflexivity.
  - apply chain_acyclic.
Defined.

(** *** A model that fails for one function *)


(** The run in full: [helper1] is marked done right after the call that
    gave nothing and keeps its name; [helper2] and [main] are renamed. *)
Example failing_model_scenario :
  ∃ st, worklist_loop is_derived_func_name (name_oracle failing_on_helper1)
          chain0 (fuel_bound chain0) (initial_state chain0) = Finished st
        ∧ trace st = [Apply helper2 (Suggested "renamed_sub_401200");
                      MarkDone helper2;
                      Apply helper1 NoSuggestion; MarkDone helper1;
                      Apply main (Suggested "renamed_sub_401000");
                      MarkDone main]
        ∧ names st helper1 = "sub_401100"
        ∧ names st helper2 = "renamed_sub_401200"
        ∧ names st main = "renamed_sub_401000".
Proof. eexists. split; [by vm_compute|]. by repeat split. Qed.

(** *** A callee that already carries a meaningful name *)

(** [helper1], named [ParseHeader], is marked done without a call; [main]
    is then renamed. *)
Example named_helper_scenario :
  ∃ st, worklist_loop is_derived_func_name eager named_helper
          (fuel_bound named_helper) (initial_state named_helper) = Finished st
        ∧ trace st = [MarkDone helper1;
                      Apply main (Suggested "renamed_sub_401000");
                      MarkDone main]
        ∧ names st helper1 = "ParseHeader".
Proof. eexists. split; [by vm_compute|]. by split. Qed.

End Scenarios.

(** * Further properties *)

(** ** The singleton manager: failures of the constructor *)

Section ManagerRetries.
Import Manager.
Variable ctor_ok : nat → bool.

Lemma get_instances_from_unset n :
  ∀ m m' rs,
    _binja_function_name_gpt m = None →
    get_instances ctor_ok n m = (m', rs) →
    (∀ i, i < n →
       ((∀ j, j ≤ i → ctor_ok (ctor_calls m + j) = false) →
        rs !! i = Some None)
       ∧ (∀ j, j ≤ i → ctor_ok (ctor_calls m + j) = true →
            (∀ j', j' < j → ctor_ok (ctor_calls m + j') = false) →
            rs !! i = Some (Some {| serial := ctor_calls m + j |})))
    ∧ ((∀ j, j < n → ctor_ok (ctor_calls m + j) = false) →
       ctor_calls m' = ctor_calls m + n
       ∧ _binja_function_name_gpt m' = None
       ∧ constructed m' = constructed m).
Proof.
  induction n as [|n IH]; intros m m' rs E; simpl.
  { intros [= <- <-]. split; [lia|]. intros _. split; [lia|done]. }
  pose proof (get_instance_unset ctor_ok m E) as G.
  destruct (ctor_ok (ctor_calls m)) eqn:K.
  - destruct G as (m1 & -> & E1 & K1 & C1).
    rewrite (get_instances_set ctor_ok n m1 _ E1). intros [= <- <-].
    split.
    + intros i Hi. split.
      * intros Hf. specialize (Hf 0 ltac:(lia)).
        rewrite Nat.add_0_r in Hf. congruence.
      * intros j Hj Hok Hmin. destruct j as [|j].
        -- rewrite Nat.add_0_r.
           change (replicate (S n) (Some {| serial := ctor_calls m |}) !! i
                   = Some (Some {| serial := ctor_calls m |})).
           apply lookup_replicate. split; [done|lia].
        -- specialize (Hmin 0 ltac:(lia)).
           rewrite Nat.add_0_r in Hmin. congruence.
    + intros Hf. specialize (Hf 0 ltac:(lia)).
      rewrite Nat.add_0_r in Hf. congruence.
  - destruct G as (m1 & -> & E1 & K1 & C1).
    destruct (get_instances ctor_ok n m1) as [m2 rs2] eqn:R.
    intros [= <- <-]. destruct (IH m1 m2 rs2 E1 R) as [IH1 IH2].
    rewrite K1 in IH1, IH2. split.
    + intros [|i] Hi; simpl.
      * split; [done|]. intros j Hj Hok _.
        assert (j = 0) as -> by lia. rewrite Nat.add_0_r in Hok. congruence.
      * destruct (IH1 i ltac:(lia)) as [IHa IHb]. split.
        -- intros Hf. apply IHa. intros j Hj.
           replace (S (ctor_calls m) + j) with (ctor_calls m + S j) by lia.
           apply Hf. lia.
        -- intros [|j] Hj Hok Hmin.
           { rewrite Nat.add_0_r in Hok. congruence. }
           replace (ctor_calls m + S j) with (S (ctor_calls m) + j) by lia.
           apply IHb; [lia| |].
           ++ by replace (S (ctor_calls m) + j)
                with (ctor_calls m + S j) by lia.
           ++ intros j' Hj'.
              replace (S (ctor_calls m) + j')
                with (ctor_calls m + S j') by lia.
              apply Hmin. lia.
    + intros Hf. destruct IH2 as (-> & -> & ->).
      * intros j Hj.
        replace (S (ctor_calls m) + j) with (ctor_calls m + S j) by lia.
        apply Hf. lia.
      * split; [lia|]. by split.
Qed.

Lemma get_instances_ctor_calls n m :
  ctor_calls (get_instances ctor_ok n m).1 ≤ ctor_calls m + n.
Proof.
  revert m. induction n as [|n IH]; intros m; simpl; [lia|].
  destruct (get_instance ctor_ok m) as [m1 r] eqn:G.
  assert (ctor_calls m1 ≤ S (ctor_calls m)).
  { revert G. unfold get_instance, construct.
    destruct (_binja_function_name_gpt m); [intros [= <- _]; lia|].
    destruct (ctor_ok (ctor_calls m)); intros [= <- _]; simpl; lia. }
  specialize (IH m1).
  destruct (get_instances ctor_ok n m1) as [m2 rs]. simpl in *. lia.
Qed.

(** X1. A failure of the constructor is not remembered. In a sequence of
    calls on a fresh manager, a call raises exactly when the constructor has
    raised in it and in every call before it, and each such call enters the
    constructor anew; from the first call in which the constructor returns,
    every call returns the wrapper built in that call. *)
Theorem get_instance_retries (n : nat) m rs :
  get_instances ctor_ok n init = (m, rs) →
  (∀ i, i < n →
     ((∀ j, j ≤ i → ctor_ok j = false) → rs !! i = Some None)
     ∧ (∀ j, j ≤ i → ctor_ok j = true → (∀ j', j' < j → ctor_ok j' = false) →
          rs !! i = Some (Some {| serial := j |})))
  ∧ ((∀ j, j < n → ctor_ok j = false) →
     ctor_calls m = n ∧ _binja_function_name_gpt m = None
     ∧ constructed m = 0).
Proof.
  intros R.
  destruct (get_instances_from_unset n init m rs eq_refl R) as [H1 H2].
  split; [exact H1|exact H2].
Qed.

End ManagerRetries.

(** With a constructor that raises twice, the third call builds the wrapper
    and the fourth returns it. *)
Lemma get_instance_retries_witness :
  (Manager.get_instances Scenario.ctor_flaky 4 Manager.init).2 !! 1
  = Some None
  ∧ (Manager.get_instances Scenario.ctor_flaky 4 Manager.init).2 !! 3
    = Some (Some {| Manager.serial := 2 |}).
Proof.
  pose proof (get_instance_retries Scenario.ctor_flaky 4 _ _ eq_refl)
    as [H _].
  split.
  - apply (proj1 (H 1 ltac:(lia))). intros j Hj.
    destruct j as [|[|j]]; [reflexivity|reflexivity|lia].
  - apply (proj2 (H 3 ltac:(lia)) 2); [lia|reflexivity|].
    intros j Hj. destruct j as [|[|j]]; [reflexivity|reflexivity|lia].
Defined.

(** ** The singleton manager: every schedule of two tasks *)

Section EverySchedule.
Import Manager.
Variable ctor_ok : nat → bool.

Lemma returns_wrapper_mono m m' p :
  ctor_calls m ≤ ctor_calls m' →
  (is_Some (_binja_function_name_gpt m) →
   is_Some (_binja_function_name_gpt m')) →
  returns_wrapper m p → returns_wrapper m' p.
Proof.
  intros Hc Ha. destruct p as [| |x| |r|]; simpl; try done.
  - lia.
  - intros (x & -> & Hx). exists x. split; [done|lia].
Qed.

(** One statement of one task keeps [tasks_sound]. *)
Lemma thread_step_sound m p q m' p' :
  thread_step ctor_ok m p = (m', p') →
  constructed m ≤ ctor_calls m →
  (∀ x, _binja_function_name_gpt m = Some x → serial x < ctor_calls m) →
  returns_wrapper m p → returns_wrapper m q →
  constructed m' ≤ ctor_calls m'
  ∧ ctor_calls m' + past_test p ≤ ctor_calls m + past_test p'
  ∧ (∀ x, _binja_function_name_gpt m' = Some x → serial x < ctor_calls m')
  ∧ returns_wrapper m' p' ∧ returns_wrapper m' q.
Proof.
  intros Hs Hc Ha Hp Hq.
  destruct p as [| |x| |r|]; simpl in Hs.
  - destruct (_binja_function_name_gpt m) as [x|] eqn:E;
      injection Hs as <- <-; simpl; rewrite ?E; repeat split; eauto; lia.
  - unfold construct in Hs. destruct (ctor_ok (ctor_calls m));
      injection Hs as <- <-; simpl; repeat split; try lia.
    + intros x Hx. specialize (Ha x Hx). lia.
    + apply (returns_wrapper_mono m); simpl; [lia|done|done].
    + intros x Hx. specialize (Ha x Hx). lia.
    + apply (returns_wrapper_mono m); simpl; [lia|done|done].
  - injection Hs as <- <-. simpl in *. repeat split; try lia; eauto.
    + by intros ? [= <-].
    + apply (returns_wrapper_mono m); simpl; [lia|eauto|done].
  - injection Hs as <- <-. simpl in *. repeat split; try lia; try done.
    destruct Hp as [x Hx]. exists x. split; [done|by apply Ha].
  - injection Hs as <- <-. simpl in *. repeat split; try lia; done.
  - injection Hs as <- <-. simpl in *. repeat split; try lia; done.
Qed.

Lemma interleave_sound sched w :
  tasks_sound w → tasks_sound (interleave ctor_ok sched w).
Proof.
  revert w. induction sched as [|[] sched IH]; intros w Hw; simpl; [done| |].
  - destruct (thread_step ctor_ok (shared w) (task1 w)) as [m p] eqn:Hs.
    apply IH. destruct Hw as (Hc & Hn & Ha & H1 & H2).
    destruct (thread_step_sound _ _ (task2 w) _ _ Hs Hc Ha H1 H2)
      as (? & ? & ? & ? & ?).
    unfold tasks_sound. simpl. repeat split; try done; lia.
  - destruct (thread_step ctor_ok (shared w) (task2 w)) as [m p] eqn:Hs.
    apply IH. destruct Hw as (Hc & Hn & Ha & H1 & H2).
    destruct (thread_step_sound _ _ (task1 w) _ _ Hs Hc Ha H2 H1)
      as (? & ? & ? & ? & ?).
    unfold tasks_sound. simpl. repeat split; try done; lia.
Qed.


Lemma thread_step_settled w0 m p q m' p' :
  thread_step ctor_ok m p = (m', p') →
  _binja_function_name_gpt m = Some w0 →
  bound_to w0 p → bound_to w0 q →
  m' = m ∧ bound_to w0 p' ∧ bound_to w0 q.
Proof.
  intros Hs Ea Hp Hq. destruct p as [| |x| |r|]; simpl in *; try done.
  - rewrite Ea in Hs. by injection Hs as <- <-.
  - injection Hs as <- <-. by rewrite Ea.
  - by injection Hs as <- <-.
Qed.

Lemma interleave_settled w0 sched w :
  settled w0 w → settled w0 (interleave ctor_ok sched w).
Proof.
  revert w. induction sched as [|[] sched IH]; intros w Hw; simpl; [done| |].
  - destruct (thread_step ctor_ok (shared w) (task1 w)) as [m p] eqn:Hs.
    apply IH. destruct Hw as (Ea & Hc & Hn & H1 & H2).
    destruct (thread_step_settled w0 _ _ (task2 w) _ _ Hs Ea H1 H2)
      as (-> & ? & ?).
    by unfold settled.
  - destruct (thread_step ctor_ok (shared w) (task2 w)) as [m p] eqn:Hs.
    apply IH. destruct Hw as (Ea & Hc & Hn & H1 & H2).
    destruct (thread_step_settled w0 _ _ (task1 w) _ _ Hs Ea H2 H1)
      as (-> & ? & ?).
    by unfold settled.
Qed.

(** X3. When the constructor returns and the first task has stored the
    wrapper before the second task makes its test, however the two tasks go
    on from there: one wrapper is built, the constructor is entered once, and
    each task that returns hands out that wrapper. *)
Theorem store_before_test_single (sched : list bool) :
  ctor_ok 0 = true →
  let w := interleave ctor_ok (true :: true :: true :: sched) start in
  constructed (shared w) = 1 ∧ ctor_calls (shared w) = 1
  ∧ _binja_function_name_gpt (shared w) = Some {| serial := 0 |}
  ∧ (∀ r, task1 w = Returned r → r = Some {| serial := 0 |})
  ∧ (∀ r, task2 w = Returned r → r = Some {| serial := 0 |}).
Proof.
  intros Hok w. unfold w. simpl. unfold construct. simpl. rewrite Hok. simpl.
  match goal with
  | |- context [interleave ctor_ok sched ?w1] =>
      destruct (interleave_settled {| serial := 0 |} sched w1)
        as (Ea & Hc & Hn & H1 & H2); [by unfold settled|]
  end.
  repeat split; try done; intros r E.
  - by rewrite E in H1.
  - by rewrite E in H2.
Qed.

End EverySchedule.

(** The first task runs to its end, then the second. *)
Lemma store_before_test_single_witness :
  Manager.constructed
    (Manager.shared
       (Manager.interleave Scenario.ctor_fine
          [true; true; true; true; false; false; false] Manager.start)) = 1
  ∧ Manager.task2
      (Manager.interleave Scenario.ctor_fine
         [true; true; true; true; false; false; false] Manager.start)
    = Manager.Returned (Some {| Manager.serial := 0 |}).
Proof.
  destruct (store_before_test_single Scenario.ctor_fine
              [true; false; false; false] eq_refl) as (Hc & _ & _ & _ & H2).
  split; [exact Hc|reflexivity].
Defined.

(** ** Commands run one after the other *)

Section CommandFacts.
Context {FunctionRef : Type} `{!EqDecision FunctionRef, !Countable FunctionRef}.
Variable is_derived_func_name : string → bool.
Variable suggest : (FunctionRef → string) → FunctionRef → outcome.
Variable ctor_ok : nat → bool.

Lemma run_command_get_instance m (c : command) :
  run_command is_derived_func_name suggest ctor_ok m c
  = (Manager.get_instance ctor_ok m).1.
Proof.
  destruct c as [bv fuel|bv f]; simpl.
  - unfold BGTask.run. simpl. unfold plugin_wrapper_rename_all_functions.
    by destruct (Manager.get_instance ctor_ok m) as [m' [x|]].
  - unfold BGTaskFunction.run. simpl. unfold plugin_wrapper_rename_function.
    by destruct (Manager.get_instance ctor_ok m) as [m' [x|]].
Qed.

Lemma run_commands_get_instances (cs : list command) m :
  run_commands is_derived_func_name suggest ctor_ok cs m
  = (Manager.get_instances ctor_ok (length cs) m).1.
Proof.
  revert m. induction cs as [|c cs IH]; intros m; simpl; [done|].
  unfold run_commands in *. simpl. rewrite IH, run_command_get_instance.
  destruct (Manager.get_instance ctor_ok m) as [m1 r]. simpl.
  by destruct (Manager.get_instances ctor_ok (length cs) m1).
Qed.

(** X11. The commands of the plugin share one wrapper. After any sequence
    of rename-all and rename-one commands whose tasks run one after the
    other, on whatever views and functions, at most one wrapper has been
    built and the constructor was entered at most once per command; and once
    the wrapper is there, further commands leave the manager as it is. *)
Theorem commands_share_wrapper (cs : list command) :
  let m := run_commands is_derived_func_name suggest ctor_ok cs Manager.init in
  Manager.constructed m ≤ 1
  ∧ Manager.ctor_calls m ≤ length cs
  ∧ (is_Some (Manager._binja_function_name_gpt m) →
     Manager.constructed m = 1
     ∧ ∀ cs', run_commands is_derived_func_name suggest ctor_ok cs' m = m).
Proof.
  intros m. unfold m. rewrite run_commands_get_instances.
  pose proof (get_instances_ctor_calls ctor_ok (length cs) Manager.init) as Hk.
  destruct (Manager.get_instances ctor_ok (length cs) Manager.init)
    as [m1 rs] eqn:R. simpl in *.
  destruct (get_instances_shape ctor_ok _ Manager.init _ _ eq_refl eq_refl R)
    as [(_ & C & E)|(k & x & _ & _ & C & _ & _ & E)].
  - split; [lia|]. split; [done|]. rewrite E. by intros [? ?].
  - split; [lia|]. split; [done|]. intros _. split; [done|].
    intros cs'. rewrite run_commands_get_instances.
    by rewrite (get_instances_set ctor_ok _ m1 x E).
Qed.

End CommandFacts.

(** ** Further scenarios *)

Section MoreScenarios.
Import Scenario.

(** [helper1] is not listed by the view, yet it is done at the end. *)
Lemma finished_done_is_reachable_witness :
  helper1 ∈ done (state_of
    (worklist_loop is_derived_func_name eager dangling 6
       (initial_state dangling))).
Proof.
  apply (finished_done_is_reachable is_derived_func_name eager dangling 6
           (state_of (worklist_loop is_derived_func_name eager dangling 6
                        (initial_state dangling)))
           helper1).
  - by vm_compute.
  - exists main. split; [simpl; set_solver|].
    apply rtc_once. unfold edge. simpl. set_solver.
Defined.

(** The chain is finished, so [helper1] is on no cycle. *)
Lemma finished_only_without_cycles_witness :
  ¬ path chain0 helper1 helper1.
Proof.
  apply (finished_only_without_cycles is_derived_func_name eager chain0 12
           (state_of (worklist_loop is_derived_func_name eager chain0 12
                        (initial_state chain0)))).
  - by vm_compute.
  - exists helper1. split; [simpl; set_solver|done].
Defined.

Lemma terminates_iff_acyclic_witness :
  (∃ fuel st,
     worklist_loop is_derived_func_name eager chain0 fuel
       (initial_state chain0) = Finished st)
  ↔ acyclic chain0.
Proof.
  apply (terminates_iff_acyclic is_derived_func_name eager chain0).
  - apply chain_closed. reflexivity.
  - intros ns f. unfold eager. discriminate.
Defined.

(** In the two-cycle [helper1] is on a cycle. *)
Lemma recursive_never_renamed_witness :
  (helper1 ∉ done (state_of
     (worklist_loop is_derived_func_name eager two_cycle 9
        (initial_state two_cycle))))
  ∧ names (state_of
      (worklist_loop is_derived_func_name eager two_cycle 9
         (initial_state two_cycle))) helper1 = "sub_401100".
Proof.
  destruct (recursive_never_renamed is_derived_func_name eager two_cycle 9
              helper1) as (Hd & _ & Hn).
  - exists helper1. split; [done|].
    apply (tc_l _ helper1 helper2 helper1).
    + unfold edge. simpl. set_solver.
    + apply tc_once. unfold edge. simpl. set_solver.
  - split; [exact Hd|exact Hn].
Defined.

(** On the chain, [helper1] is queried with the new name of [helper2]. *)
Lemma caller_sees_final_callee_names_witness :
  replay chain0 [Apply helper2 (Suggested "renamed_sub_401200");
                 MarkDone helper2] helper2
  = names (state_of
      (worklist_loop is_derived_func_name eager chain0 12
         (initial_state chain0))) helper2.
Proof.
  apply (caller_sees_final_callee_names is_derived_func_name eager chain0 12
           [Apply helper2 (Suggested "renamed_sub_401200"); MarkDone helper2]
           helper1 (Suggested "renamed_sub_401100")
           [MarkDone helper1; Apply main (Suggested "renamed_sub_401000");
            MarkDone main]).
  - by vm_compute.
  - simpl. set_solver.
Defined.

(** [ParseHeader] stays. *)
Lemma names_change_by_suggestion_only_witness :
  names (state_of
    (worklist_loop is_derived_func_name eager named_helper 7
       (initial_state named_helper))) helper1 = "ParseHeader".
Proof.
  apply (proj1 (names_change_by_suggestion_only is_derived_func_name eager
                  named_helper 7 helper1)).
  reflexivity.
Defined.

(** [main] is called on; [helper1], with its meaningful name, is not. *)
Lemma finished_calls_cover_witness :
  main ∈ applied (trace (state_of
    (worklist_loop is_derived_func_name eager named_helper 7
       (initial_state named_helper)))).
Proof.
  apply (finished_calls_cover is_derived_func_name eager named_helper 7
           (state_of (worklist_loop is_derived_func_name eager named_helper 7
                        (initial_state named_helper)))).
  - by vm_compute.
  - split; [|reflexivity].
    exists main. split; [simpl; set_solver|done].
Defined.

End MoreScenarios.
